(** * The DNC memory engine of [neucom/memory.py]

    A shallow embedding of the class [Memory]: its configuration, the seven
    state tensors, the nine sub-operations and the two pipelines [write] and
    [read].

    Numbers.  Tensor entries are exact rationals ([Qc]); rounding and overflow
    of float32 arithmetic are not modelled.  The constant [1e-6] that
    [init_memory] stores is the float32 nearest to it.  The one operator of
    the file that can leave the finite numbers on finite operands is the
    unguarded division of [get_allocation_weight]; its quotients are kept as
    [xnum], where [None] stands for an entry that is not a finite number (an
    infinity or a NaN).

    Tensors.  A tensor of rank k is a k-fold nested list, outermost dimension
    first.  A call that the host library refuses returns [None].

    Host library.  Three calls of the file are refused whatever the operands
    are: [torch.mm] on tensors of rank 3, [scatter_] without its dimension,
    and the constructor [torch.LongStorage] on an array of rank 2.  Two
    attributes the file reads do not exist: [self.index_mapper] and the
    tensor method [input].  Each is kept where the source has it, so that a
    method fails at the line where the code fails. *)

From stdpp Require Import base list numbers option sorting.
From Stdlib Require Import QArith Qcanon Reals Lra.

Local Open Scope Qc_scope.

Abbreviation tensor1 A := (list A) (only parsing).
Abbreviation tensor2 A := (list (list A)) (only parsing).
Abbreviation tensor3 A := (list (list (list A))) (only parsing).

(** ** Operators of the host library *)

Module Torch.

(** One dimension of broadcasting: equal sizes are paired off, a size of one
    is repeated along the other operand, anything else is refused. *)
Definition broadcast {A B C} (f : A → B → option C)
    (xs : list A) (ys : list B) : option (list C) :=
  if decide (length xs = length ys) then mapM (λ p, f p.1 p.2) (zip xs ys)
  else match xs, ys with
       | [x], _ => mapM (f x) ys
       | _, [y] => mapM (λ x, f x y) xs
       | _, _ => None
       end.

Definition pointwise1 {A B C} (f : A → B → C) : list A → list B → option (list C) :=
  broadcast (λ x y, Some (f x y)).
Definition pointwise2 {A B C} (f : A → B → C) :
    tensor2 A → tensor2 B → option (tensor2 C) :=
  broadcast (pointwise1 f).
Definition pointwise3 {A B C} (f : A → B → C) :
    tensor3 A → tensor3 B → option (tensor3 C) :=
  broadcast (pointwise2 f).

(** [c - t] for a Python scalar [c]. *)
Definition rsub2 (c : Qc) (t : tensor2 Qc) : tensor2 Qc :=
  (λ r : list Qc, Qcminus c <$> r) <$> t.
Definition rsub3 (c : Qc) (t : tensor3 Qc) : tensor3 Qc := rsub2 c <$> t.

Definition sum_list (l : list Qc) : Qc := foldr Qcplus 0 l.
Definition prod_list (l : list Qc) : Qc := foldr Qcmult 1 l.

(** [torch.prod(t, 2)] on a rank-3 tensor. *)
Definition prod_2 (t : tensor3 Qc) : tensor2 Qc :=
  (λ m : tensor2 Qc, prod_list <$> m) <$> t.

(** [torch.cumprod(t, 1)] on a rank-2 tensor: the inclusive running product
    of every row. *)
Fixpoint cumprod_from (acc : Qc) (l : list Qc) : list Qc :=
  match l with
  | [] => []
  | x :: l' => acc * x :: cumprod_from (acc * x) l'
  end.
Definition cumprod_1 (t : tensor2 Qc) : tensor2 Qc := cumprod_from 1 <$> t.

(** [t.transpose(0, 1)]: the two outermost dimensions change places. *)
Definition column {A} (j : nat) (t : tensor2 A) : list A := omap (λ r, r !! j) t.
Definition transpose_0_1 {A} (t : tensor2 A) : tensor2 A :=
  (λ j, column j t) <$> seq 0 (length (default [] (head t))).

(** [torch.mm(a, b)] is the product of an n×k matrix and a k×m matrix. *)
Definition dot (u v : list Qc) : Qc := sum_list (zip_with Qcmult u v).
Definition matmul (a b : tensor2 Qc) : option (tensor2 Qc) :=
  if forallb (λ r, length r =? length b)%nat a
  then Some ((λ r, dot r <$> transpose_0_1 b) <$> a)
  else None.

(** [torch.mm] takes matrices only.  Every call of the file (lines 183, 184,
    232, 254, 255 and 299) hands it tensors of rank 3, and is refused. *)
Definition mm (a b : tensor3 Qc) : option (tensor3 Qc) := None.

Definition eye (n : nat) : tensor2 Qc :=
  (λ i, (λ j, if decide (i = j) then 1 else 0) <$> seq 0 n) <$> seq 0 n.

Definition zeros1 (n : nat) : tensor1 Qc := replicate n 0.
Definition zeros2 (b n : nat) : tensor2 Qc := replicate b (zeros1 n).
Definition zeros3 (b n m : nat) : tensor3 Qc := replicate b (zeros2 n m).

(** [t.fill_(c)]: every entry becomes [c]. *)
Definition fill_1 (c : Qc) (t : tensor1 Qc) : tensor1 Qc := (λ _, c) <$> t.
Definition fill_2 (c : Qc) (t : tensor2 Qc) : tensor2 Qc := fill_1 c <$> t.
Definition fill_3 (c : Qc) (t : tensor3 Qc) : tensor3 Qc := fill_2 c <$> t.

(** [torch.gather(t, 1, index)] on rank-2 operands. *)
Definition gather_1 {A} (t : tensor2 A) (index : tensor2 nat) : option (tensor2 A) :=
  if decide (length index ≤ length t)%nat
  then mapM (λ p, mapM (λ i, p.1 !! i) p.2) (zip t index)
  else None.

(** [c.scatter_(index, src)], as line 125 calls it.  The method is
    [scatter_(dim, index, src)]: without the dimension the call is refused,
    and the container [c] it would have written into and returned is left
    as it was. *)
Definition scatter_ {A B} (c : list A) (index : list nat) (src : list B) :
    option (list A) := None.

(** Line 356, [Variable(torch.LongStorage(sort_list))]: the constructor takes
    a size or a flat sequence of integers, and is refused on the rank-2 array
    that [np.argsort] returns. *)
Definition LongStorage (sort_list : tensor2 nat) : option (tensor2 nat) := None.

(** Line 357, [t.input(b, n)]: tensors have no method [input], and the
    attribute lookup raises. *)
Definition input (t : tensor2 Qc) (b n : nat) : option (tensor2 nat) := None.

(** [t.view(-1)] on a rank-2 tensor and [t.view(b, n)] on a rank-1 tensor. *)
Definition flatten {A} (t : tensor2 A) : list A := mjoin t.
Fixpoint view2 {A} (b n : nat) (t : list A) : tensor2 A :=
  match b with
  | O => []
  | S b' => take n t :: view2 b' n (drop n t)
  end.

End Torch.

(** ** Helpers of [neucom.utils] *)

Module Utils.
Import Torch.

(** Modelled from the spec: [expand_dims] of neucom/utils.py, which is not
    among the sources.  It inserts a dimension of size one at the given
    axis (§4.5: outer products broadcast over slot×word). *)
Definition expand_dims_1 {A} (t : tensor2 A) : tensor3 A := (λ r, [r]) <$> t.
Definition expand_dims_2 {A} (t : tensor2 A) : tensor3 A :=
  (λ r : list A, (λ x, [x]) <$> r) <$> t.

(** Modelled from the spec: [reduce_sum(t, 1, keep_dims=True)] of
    neucom/utils.py (§4.6: [sum(writeWeight)] per batch row). *)
Definition reduce_sum_1_keep (t : tensor2 Qc) : tensor2 Qc := (λ r, [sum_list r]) <$> t.

(** Modelled from the spec: [pairwise_add(u, is_batch=True)] of
    neucom/utils.py (§4.6: entry (i,j) is [u[i] + u[j]], per batch row),
    for [u] of shape [B,N,1]. *)
Definition pairwise_add (u : tensor3 Qc) : tensor3 Qc :=
  (λ m : tensor2 Qc, let w := concat m in (λ x, (λ y, x + y) <$> w) <$> w) <$> u.

End Utils.

(** ** The class [Memory] *)

Record Memory := {
  mem_slot : nat;
  mem_size : nat;
  read_heads : nat;
  batch_size : nat
}.

(** [namedtuple('mem_tuple', ...)] *)
Record mem_tuple := {
  mem_mat : tensor3 Qc;
  mem_usage : tensor2 Qc;
  pre_vec : tensor2 Qc;
  link_mat : tensor3 Qc;
  write_weight : tensor2 Qc;
  read_weight : tensor3 Qc;
  read_vec : tensor3 Qc
}.

(** An entry of a tensor that came out of a division: [None] is an infinity
    or a NaN. *)
Definition xnum : Type := option Qc.

(** [a / b] on finite operands: the quotient is not finite when [b] is zero. *)
Definition fdiv (a b : Qc) : xnum := if decide (b = 0) then None else Some (a / b).
(** [x / b] and [a * x] where [x] may already be an infinity or a NaN. *)
Definition xdiv (x : xnum) (b : Qc) : xnum := a ← x; fdiv a b.
Definition xscale (a : Qc) (x : xnum) : xnum := Qcmult a <$> x.

Definition shape2 {A} (t : tensor2 A) : nat * nat :=
  (length t, length (default [] (head t))).

(** [np.argsort(t, axis=-1)]: per row, the positions in ascending order of
    their entries.  Equal entries come in the order the merge sort leaves
    them; NumPy's default sort promises no order among them, and nothing
    below depends on it. *)
Definition key_le (p q : Qc * nat) : Prop := p.1 ≤ q.1.
Global Instance key_le_dec : RelDecision key_le := λ p q, decide (p.1 ≤ q.1).
Definition argsort_row (r : list Qc) : list nat :=
  snd <$> merge_sort key_le (zip r (seq 0 (length r))).
Definition argsort (t : tensor2 Qc) : tensor2 nat := argsort_row <$> t.

(** The Python constant [1e-6] as [fill_] stores it in a float32 tensor:
    the nearest float32, 8796093 / 2^43. *)
Definition eps6 : Qc := Q2Qc (8796093 # 8796093022208).

(** [self.I = Variable(torch.eye(mem_slot))] *)
Definition Memory_I (self : Memory) : tensor2 Qc := Torch.eye (mem_slot self).

(** [self.index_mapper], read at line 117: [__init__] stores its four
    arguments, [I] and [memory_tuple], and no other statement of the class
    sets an attribute, so the lookup raises. *)
Definition index_mapper (self : Memory) : option (tensor2 nat) := None.

Section Methods.
Import Torch Utils.

(** [cosine_distance] and [softmax] of neucom/utils.py are not among the
    sources; the pipelines take them as they come. *)
Variable cosine_distance : tensor3 Qc → tensor3 Qc → option (tensor3 Qc).
Variable softmax : tensor3 Qc → nat → option (tensor3 Qc).

Variable self : Memory.

Definition init_memory : mem_tuple :=
  let B := batch_size self in
  let N := mem_slot self in
  let W := mem_size self in
  let R := read_heads self in
  {| mem_mat := fill_3 eps6 (zeros3 B N W);
     mem_usage := zeros2 B N;
     pre_vec := zeros2 B N;
     link_mat := zeros3 B N N;
     write_weight := fill_2 eps6 (zeros2 B N);
     read_weight := fill_3 eps6 (zeros3 B N R);
     read_vec := fill_3 eps6 (zeros3 B W R) |}.

Definition get_content_address (memory_matrix keys : tensor3 Qc)
    (strengths : tensor2 Qc) : option (tensor3 Qc) :=
  cos_dist ← cosine_distance memory_matrix keys;
  let strengths := expand_dims_1 strengths in
  scaled ← pointwise3 Qcmult cos_dist strengths;
  softmax scaled 1.

Definition update_usage_vector (usage_vector : tensor2 Qc) (read_weights : tensor3 Qc)
    (write_weight free_gates : tensor2 Qc) : option (tensor2 Qc) :=
  let free_gates := expand_dims_1 free_gates in
  gated ← pointwise3 Qcmult read_weights free_gates;
  let retention_vector := prod_2 (rsub3 2 gated) in
  s ← pointwise2 Qcplus usage_vector write_weight;
  p ← pointwise2 Qcmult usage_vector write_weight;
  d ← pointwise2 Qcminus s p;
  pointwise2 Qcmult d retention_vector.

(** Lines 112-115: the tensor [unordered_allocation_weight]. *)
Definition unordered_allocation_weight (sorted_usage : tensor2 Qc) :
    option (tensor2 xnum) :=
  usage_0 ← sorted_usage !! 0%nat;
  shifted_cumprod ← pointwise2 fdiv (cumprod_1 sorted_usage) [usage_0];
  shifted_last ← last shifted_cumprod;
  usage_last ← last sorted_usage;
  quotient ← pointwise1 xdiv shifted_last usage_last;
  let shifted_cumprod :=
    <[(length shifted_cumprod - 1)%nat := quotient]> shifted_cumprod in
  pointwise2 xscale (rsub2 1 sorted_usage) shifted_cumprod.

Definition get_allocation_weight (sorted_usage : tensor2 Qc) (free_list : tensor2 nat) :
    option (tensor2 Qc) :=
  unordered_allocation_weight ← unordered_allocation_weight sorted_usage;
  index_mapper ← index_mapper self;
  mapped_free_list ← pointwise2 Nat.add free_list index_mapper;
  let flat_unordered_allocation_weight := flatten unordered_allocation_weight in
  let flat_mapped_free_list := flatten mapped_free_list in
  let flat_container := zeros1 (batch_size self * mem_slot self) in
  flat_ordered_weights ←
    scatter_ flat_container flat_mapped_free_list flat_unordered_allocation_weight;
  Some (view2 (batch_size self) (mem_slot self) flat_ordered_weights).

(** [lookup_weight.view] to its own first two sizes: the trailing
    dimension must hold one entry. *)
Definition view_first_2 (t : tensor3 Qc) : option (tensor2 Qc) :=
  if forallb (forallb (λ r : list Qc, length r =? 1)%nat) t
  then Some ((λ m : tensor2 Qc, concat m) <$> t) else None.

Definition update_write_weight (lookup_weight : tensor3 Qc)
    (allocation_weight write_gate allocation_gate : tensor2 Qc) : option (tensor2 Qc) :=
  lookup_weight ← view_first_2 lookup_weight;
  a ← pointwise2 Qcmult allocation_gate allocation_weight;
  l ← pointwise2 Qcmult (rsub2 1 allocation_gate) lookup_weight;
  s ← pointwise2 Qcplus a l;
  pointwise2 Qcmult write_gate s.

Definition update_memory (memory_matrix : tensor3 Qc)
    (write_weight write_vector erase_vector : tensor2 Qc) : option (tensor3 Qc) :=
  let write_weight := expand_dims_2 write_weight in
  let write_vector := expand_dims_1 write_vector in
  let erase_vector := expand_dims_1 erase_vector in
  erased ← mm write_weight erase_vector;
  erasing ← pointwise3 Qcmult memory_matrix (rsub3 1 erased);
  writing ← mm write_weight write_vector;
  pointwise3 Qcplus erasing writing.

Definition update_precedence_vector (precedence_vector write_weight : tensor2 Qc) :
    option (tensor2 Qc) :=
  let reset_factor := rsub2 1 (reduce_sum_1_keep write_weight) in
  kept ← pointwise2 Qcmult reset_factor precedence_vector;
  pointwise2 Qcplus kept write_weight.

Definition update_link_matrix (precedence_vector : tensor2 Qc) (link_matrix : tensor3 Qc)
    (write_weight : tensor2 Qc) : option (tensor3 Qc) :=
  let write_weight := expand_dims_2 write_weight in
  let precedence_vector := expand_dims_1 precedence_vector in
  let reset_factor := rsub3 1 (pairwise_add write_weight) in
  kept ← pointwise3 Qcmult reset_factor link_matrix;
  outer ← mm write_weight precedence_vector;
  updated_link_matrix ← pointwise3 Qcplus kept outer;
  pointwise3 Qcmult [rsub2 1 (Memory_I self)] updated_link_matrix.

Definition get_directional_weights (read_weights link_matrix : tensor3 Qc) :
    option (tensor3 Qc * tensor3 Qc) :=
  forward_weight ← mm link_matrix read_weights;
  backward_weight ← mm (transpose_0_1 link_matrix) read_weights;
  Some (forward_weight, backward_weight).

(** [read_mode[:, k, :]] *)
Definition select_1 (k : nat) (t : tensor3 Qc) : option (tensor2 Qc) :=
  mapM (λ m : tensor2 Qc, m !! k) t.

Definition update_read_weights (lookup_weights forward_weight backward_weight
    read_mode : tensor3 Qc) : option (tensor3 Qc) :=
  mode_0 ← select_1 0 read_mode;
  backward_mode ← pointwise3 Qcmult (expand_dims_1 mode_0) backward_weight;
  mode_1 ← select_1 1 read_mode;
  lookup_mode ← pointwise3 Qcmult (expand_dims_1 mode_1) lookup_weights;
  mode_2 ← select_1 2 read_mode;
  forward_mode ← pointwise3 Qcmult (expand_dims_1 mode_2) forward_weight;
  s ← pointwise3 Qcplus backward_mode lookup_mode;
  pointwise3 Qcplus s forward_mode.

Definition update_read_vectors (memory_matrix read_weights : tensor3 Qc) :
    option (tensor3 Qc) :=
  mm (transpose_0_1 memory_matrix) read_weights.

Definition write (memory_matrix : tensor3 Qc) (usage_vector : tensor2 Qc)
    (read_weights : tensor3 Qc) (write_weight precedence_vector : tensor2 Qc)
    (link_matrix key : tensor3 Qc)
    (strength free_gates allocation_gate write_gate write_vector erase_vector : tensor2 Qc) :
    option (tensor2 Qc * tensor2 Qc * tensor3 Qc * tensor3 Qc * tensor2 Qc) :=
  lookup_weight ← get_content_address memory_matrix key strength;
  new_usage_vector ← update_usage_vector usage_vector read_weights write_weight free_gates;
  let sort_list := argsort new_usage_vector in
  free_list ← LongStorage sort_list;
  free_list ← input new_usage_vector (shape2 sort_list).1 (shape2 sort_list).2;
  sorted_usage ← gather_1 new_usage_vector free_list;
  allocation_weight ← get_allocation_weight sorted_usage free_list;
  new_write_weight ←
    update_write_weight lookup_weight allocation_weight write_gate allocation_gate;
  new_memory_matrix ← update_memory memory_matrix new_write_weight write_vector erase_vector;
  new_link_matrix ← update_link_matrix precedence_vector link_matrix new_write_weight;
  new_precedence_vector ← update_precedence_vector precedence_vector new_write_weight;
  Some (new_usage_vector, new_write_weight, new_memory_matrix, new_link_matrix,
        new_precedence_vector).

Definition read (memory_matrix read_weights keys : tensor3 Qc) (strengths : tensor2 Qc)
    (link_matrix read_modes : tensor3 Qc) : option (tensor3 Qc * tensor3 Qc) :=
  lookup_weight ← get_content_address memory_matrix keys strengths;
  '(forward_weight, backward_weight) ← get_directional_weights read_weights link_matrix;
  new_read_weights ←
    update_read_weights lookup_weight forward_weight backward_weight read_modes;
  new_read_vectors ← update_read_vectors memory_matrix new_read_weights;
  Some (new_read_weights, new_read_vectors).

End Methods.

Import Torch Utils.

(** ** Shapes and entries *)

Definition has_shape2 {A} (B N : nat) (t : tensor2 A) : Prop :=
  length t = B ∧ Forall (λ r, length r = N) t.
Definition has_shape3 {A} (B N M : nat) (t : tensor3 A) : Prop :=
  length t = B ∧ Forall (has_shape2 N M) t.

Definition get2 {A} (t : tensor2 A) (b i : nat) : option A := r ← t !! b; r !! i.
Definition get3 {A} (t : tensor3 A) (b i j : nat) : option A := m ← t !! b; get2 m i j.

(** The position an operand is read at when it is broadcast along one
    dimension. *)
Definition bidx {A} (l : list A) (i : nat) : nat := if decide (length l = 1%nat) then 0%nat else i.

(** ** The operations as the specification words them

    Used only to compare the source with: none of the definitions above
    depends on them. *)

Module Spec.

(** §4.2: retention is the product over read heads of
    [1 - readWeight * freeGate]; new usage is
    [(oldUsage + prevWriteWeight - oldUsage * prevWriteWeight) * retention]. *)
Definition update_usage_vector (usage_vector : tensor2 Qc) (read_weights : tensor3 Qc)
    (write_weight free_gates : tensor2 Qc) : option (tensor2 Qc) :=
  gated ← pointwise3 Qcmult read_weights (expand_dims_1 free_gates);
  let retention := prod_2 (rsub3 1 gated) in
  s ← pointwise2 Qcplus usage_vector write_weight;
  p ← pointwise2 Qcmult usage_vector write_weight;
  d ← pointwise2 Qcminus s p;
  pointwise2 Qcmult d retention.

(** §4.3: the exclusive cumulative product (position 0 holds 1), the weight
    [(1 - sortedUsage[p]) * exclusiveCumProd[p]] at sorted position [p], and
    the scatter of position [p] to slot [freeList[p]], per batch row. *)
Fixpoint exclusive_cumprod_from (acc : Qc) (l : list Qc) : list Qc :=
  match l with
  | [] => []
  | x :: l' => acc :: exclusive_cumprod_from (acc * x) l'
  end.
Definition unordered_allocation_weight (sorted_usage : tensor2 Qc) : tensor2 Qc :=
  (λ row, zip_with (λ u c, (1 - u) * c) row (exclusive_cumprod_from 1 row)) <$> sorted_usage.
(** §9: a direct indexed write into a freshly allocated output array,
    [c[index[k]] = src[k]] for every k in turn. *)
Fixpoint scatter {A} (c : list A) (index : list nat) (src : list A) : option (list A) :=
  match index, src with
  | [], _ => Some c
  | i :: index', x :: src' =>
      if decide (i < length c)%nat then scatter (<[i:=x]> c) index' src' else None
  | _ :: _, [] => None
  end.
Definition get_allocation_weight (sorted_usage : tensor2 Qc) (free_list : tensor2 nat) :
    option (tensor2 Qc) :=
  mapM (λ p : list Qc * list nat, scatter (zeros1 (length p.1)) p.2 p.1)
       (zip (unordered_allocation_weight sorted_usage) free_list).

(** §4.7: the matrix product over the slot dimension, one product per batch
    row. *)
Definition bmm (a b : tensor3 Qc) : option (tensor3 Qc) :=
  if decide (length a = length b) then mapM (λ p, matmul p.1 p.2) (zip a b)
  else None.

(** §4.5: the outer product [w ⊗ v] of a [B,N] weight and a [B,W] vector,
    per batch row; [erase = memory · (1 − writeWeight ⊗ eraseVector)],
    [add = writeWeight ⊗ writeVector], [newMemory = erase + add]. *)
Definition outer_product (w v : tensor2 Qc) : option (tensor3 Qc) :=
  bmm (expand_dims_2 w) (expand_dims_1 v).
Definition update_memory (memory_matrix : tensor3 Qc)
    (write_weight write_vector erase_vector : tensor2 Qc) : option (tensor3 Qc) :=
  erased ← outer_product write_weight erase_vector;
  erase ← pointwise3 Qcmult memory_matrix (rsub3 1 erased);
  add ← outer_product write_weight write_vector;
  pointwise3 Qcplus erase add.

(** §4.6: for the slot pair (i,j),
    [resetFactor = 1 − (writeWeight[i] + writeWeight[j])] and
    [newLink = resetFactor · oldLink + writeWeight[i] · oldPrecedence[j]];
    then the diagonal is forced to zero. *)
Definition update_link_matrix (slots : nat) (precedence_vector : tensor2 Qc)
    (link_matrix : tensor3 Qc) (write_weight : tensor2 Qc) : option (tensor3 Qc) :=
  let reset_factor := rsub3 1 (pairwise_add (expand_dims_2 write_weight)) in
  kept ← pointwise3 Qcmult reset_factor link_matrix;
  linked ← outer_product write_weight precedence_vector;
  new_link ← pointwise3 Qcplus kept linked;
  pointwise3 Qcmult [rsub2 1 (eye slots)] new_link.

(** §4.7: forward is [link · readWeights], backward is
    [transpose(link) · readWeights], the transpose exchanging the two slot
    dimensions inside every batch row. *)
Definition transpose_1_2 {A} (t : tensor3 A) : tensor3 A := transpose_0_1 <$> t.
Definition get_directional_weights (read_weights link_matrix : tensor3 Qc) :
    option (tensor3 Qc * tensor3 Qc) :=
  forward_weight ← bmm link_matrix read_weights;
  backward_weight ← bmm (transpose_1_2 link_matrix) read_weights;
  Some (forward_weight, backward_weight).

End Spec.

(** Rationals written as a numerator over a denominator. *)
Definition frac (a : Z) (b : positive) : Qc := Q2Qc (a # b).

(** The entries of [Spec.outer_product w p]. *)
Definition outer (w p : tensor2 Qc) : tensor3 Qc :=
  zip_with (λ wr pr : list Qc, (λ x, (λ y, x * y + 0) <$> pr) <$> wr) w p.

(** The closed form of lines 112-115. *)
Definition shifted_cumprod_112 (sorted_usage : tensor2 Qc) (usage_0 : list Qc) :
    tensor2 xnum :=
  (λ r, zip_with fdiv r usage_0) <$> cumprod_1 sorted_usage.
Definition shifted_cumprod_113 (sorted_usage : tensor2 Qc) (usage_0 usage_last : list Qc) :
    tensor2 xnum :=
  let s := shifted_cumprod_112 sorted_usage usage_0 in
  <[(length s - 1)%nat := zip_with xdiv (default [] (last s)) usage_last]> s.

(** ** Tensors as objects

    The value-level definitions above describe what each method computes.
    The class itself passes references to tensor objects, and three
    statements of the file are there to write into an object in place
    ([fill_], the row assignment [shifted_cumprod[-1] = ...] and [scatter_],
    which is refused before it writes).  This layer keeps the objects in a
    heap, so that what a call does to the objects it was handed can be
    stated.

    A float tensor on the heap may hold entries that are not finite numbers:
    line 112 creates such tensors.  A method whose body is exact arithmetic
    reads its operands through [as_float2] and [as_float3]; handed a tensor
    with such an entry it ends in [NotFinite], which says that the operand is
    outside the arithmetic modelled here, not what the code makes of it.  No
    method reaches that end on operands that hold finite numbers.  Views
    ([view], [expand_dims], slicing, [transpose]) are never written through
    in the file and are read as values. *)

(** How a call on tensor objects ends: with a value, with a Python
    exception, or at an operand that holds an entry that is not a finite
    number. *)
Inductive outcome (A : Type) : Type :=
  | Ok (a : A)
  | Raised
  | NotFinite.
Arguments Ok {A} a.
Arguments Raised {A}.
Arguments NotFinite {A}.

Global Instance outcome_ret : MRet outcome := λ A a, Ok a.
Global Instance outcome_bind : MBind outcome := λ A B f m,
  match m with
  | Ok a => f a
  | Raised => Raised
  | NotFinite => NotFinite
  end.

Global Instance outcome_fmap : FMap outcome := λ A B f m,
  match m with
  | Ok a => Ok (f a)
  | Raised => Raised
  | NotFinite => NotFinite
  end.

Definition lift {A} (o : option A) : outcome A :=
  match o with Some a => Ok a | None => Raised end.

(** The finite entries of a float tensor of rank 2. *)
Definition finite2 (t : tensor2 xnum) : outcome (tensor2 Qc) :=
  match mapM (mapM (M:=option) (λ x : xnum, x)) t with
  | Some t' => Ok t'
  | None => NotFinite
  end.

Module Heap.

Inductive tensor : Type :=
  | Float1 (t : tensor1 xnum)
  | Float2 (t : tensor2 xnum)
  | Float3 (t : tensor3 xnum)
  | Long1 (t : tensor1 nat)
  | Long2 (t : tensor2 nat).

Abbreviation ref := nat (only parsing).
Abbreviation heap := (list tensor) (only parsing).

(** A computation over the heap; the heap reached is kept when it raises. *)
Definition run (A : Type) : Type := heap → outcome A * heap.

Global Instance run_ret : MRet run := λ A a h, (Ok a, h).
Global Instance run_bind : MBind run := λ A B f m h,
  match m h with
  | (Ok a, h') => f a h'
  | (Raised, h') => (Raised, h')
  | (NotFinite, h') => (NotFinite, h')
  end.

(** A fresh object. *)
Definition new (v : tensor) : run ref := λ h, (Ok (length h), h ++ [v]).
Definition load (r : ref) : run tensor := λ h,
  match h !! r with
  | Some v => (Ok v, h)
  | None => (Raised, h)
  end.
(** An in-place write into the object [r]. *)
Definition store (r : ref) (v : tensor) : run unit := λ h,
  if decide (r < length h)%nat then (Ok (), <[r:=v]> h) else (Raised, h).
Definition of_outcome {A} (o : outcome A) : run A := λ h, (o, h).

Definition finite3 (t : tensor3 xnum) : outcome (tensor3 Qc) :=
  match mapM (mapM (mapM (M:=option) (λ x : xnum, x))) t with
  | Some t' => Ok t'
  | None => NotFinite
  end.

Definition as_float2 (v : tensor) : outcome (tensor2 Qc) :=
  match v with Float2 t => finite2 t | _ => Raised end.
Definition as_float3 (v : tensor) : outcome (tensor3 Qc) :=
  match v with Float3 t => finite3 t | _ => Raised end.
Definition as_long2 (v : tensor) : outcome (tensor2 nat) :=
  match v with Long2 t => Ok t | _ => Raised end.
Definition as_long1 (v : tensor) : outcome (tensor1 nat) :=
  match v with Long1 t => Ok t | _ => Raised end.
(** The entries as they are, finite or not. *)
Definition as_xfloat1 (v : tensor) : outcome (tensor1 xnum) :=
  match v with Float1 t => Ok t | _ => Raised end.
Definition as_xfloat2 (v : tensor) : outcome (tensor2 xnum) :=
  match v with Float2 t => Ok t | _ => Raised end.

Definition float2 (t : tensor2 Qc) : tensor :=
  Float2 ((λ r : list Qc, Some <$> r) <$> t).
Definition float3 (t : tensor3 Qc) : tensor :=
  Float3 ((λ m : tensor2 Qc, (λ r : list Qc, Some <$> r) <$> m) <$> t).

(** A method without in-place statements: it reads its operands and returns
    one fresh tensor, or two. *)
Definition call1 (f : tensor → outcome tensor) (a : ref) : run ref :=
  va ← load a; v ← of_outcome (f va); new v.
Definition call2 (f : tensor → tensor → outcome tensor) (a b : ref) : run ref :=
  va ← load a; vb ← load b; v ← of_outcome (f va vb); new v.
Definition call3 (f : tensor → tensor → tensor → outcome tensor) (a b c : ref) : run ref :=
  va ← load a; vb ← load b; vc ← load c; v ← of_outcome (f va vb vc); new v.
Definition call4 (f : tensor → tensor → tensor → tensor → outcome tensor)
    (a b c d : ref) : run ref :=
  va ← load a; vb ← load b; vc ← load c; vd ← load d;
  v ← of_outcome (f va vb vc vd); new v.
Definition call2_pair (f : tensor → tensor → outcome (tensor * tensor)) (a b : ref) :
    run (ref * ref) :=
  va ← load a; vb ← load b; v ← of_outcome (f va vb);
  r1 ← new v.1; r2 ← new v.2; mret (r1, r2).

(** [torch.zeros(...)] is a fresh tensor; [t.fill_(c)] writes [c] into every
    entry of [t] and returns [t] itself.  The file fills float tensors only. *)
Definition zeros_2 (b n : nat) : run ref := new (float2 (zeros2 b n)).
Definition zeros_3 (b n m : nat) : run ref := new (float3 (zeros3 b n m)).
Definition fill_ (r : ref) (c : Qc) : run ref :=
  v ← load r;
  filled ← of_outcome
    match v with
    | Float1 t => Ok (Float1 ((λ _, Some c) <$> t))
    | Float2 t => Ok (Float2 ((λ row : list xnum, (λ _, Some c) <$> row) <$> t))
    | Float3 t =>
        Ok (Float3 ((λ m : tensor2 xnum,
                       (λ row : list xnum, (λ _, Some c) <$> row) <$> m) <$> t))
    | _ => Raised
    end;
  _ ← store r filled;
  mret r.

(** The methods on tensor values of unknown rank. *)
Module T.
Section T.
Variable cosine_distance : tensor3 Qc → tensor3 Qc → option (tensor3 Qc).
Variable softmax : tensor3 Qc → nat → option (tensor3 Qc).
Variable self : Memory.

Definition get_content_address (memory_matrix keys strengths : tensor) : outcome tensor :=
  m ← as_float3 memory_matrix; k ← as_float3 keys; s ← as_float2 strengths;
  float3 <$> lift (get_content_address cosine_distance softmax m k s).

Definition update_usage_vector (usage_vector read_weights write_weight free_gates : tensor) :
    outcome tensor :=
  u ← as_float2 usage_vector; r ← as_float3 read_weights;
  w ← as_float2 write_weight; f ← as_float2 free_gates;
  float2 <$> lift (update_usage_vector u r w f).

Definition get_allocation_weight (sorted_usage free_list : tensor) : outcome tensor :=
  u ← as_float2 sorted_usage; l ← as_long2 free_list;
  float2 <$> lift (get_allocation_weight self u l).

Definition update_write_weight (lookup_weight allocation_weight write_gate
    allocation_gate : tensor) : outcome tensor :=
  l ← as_float3 lookup_weight; a ← as_float2 allocation_weight;
  w ← as_float2 write_gate; g ← as_float2 allocation_gate;
  float2 <$> lift (update_write_weight l a w g).

Definition update_memory (memory_matrix write_weight write_vector erase_vector : tensor) :
    outcome tensor :=
  m ← as_float3 memory_matrix; w ← as_float2 write_weight;
  v ← as_float2 write_vector; e ← as_float2 erase_vector;
  float3 <$> lift (update_memory m w v e).

Definition update_precedence_vector (precedence_vector write_weight : tensor) :
    outcome tensor :=
  p ← as_float2 precedence_vector; w ← as_float2 write_weight;
  float2 <$> lift (update_precedence_vector p w).

Definition update_link_matrix (precedence_vector link_matrix write_weight : tensor) :
    outcome tensor :=
  p ← as_float2 precedence_vector; l ← as_float3 link_matrix; w ← as_float2 write_weight;
  float3 <$> lift (update_link_matrix self p l w).

Definition get_directional_weights (read_weights link_matrix : tensor) :
    outcome (tensor * tensor) :=
  r ← as_float3 read_weights; l ← as_float3 link_matrix;
  (λ p, (float3 p.1, float3 p.2)) <$> lift (get_directional_weights r l).

Definition update_read_weights (lookup_weights forward_weight backward_weight
    read_mode : tensor) : outcome tensor :=
  l ← as_float3 lookup_weights; f ← as_float3 forward_weight;
  b ← as_float3 backward_weight; m ← as_float3 read_mode;
  float3 <$> lift (update_read_weights l f b m).

Definition update_read_vectors (memory_matrix read_weights : tensor) : outcome tensor :=
  m ← as_float3 memory_matrix; r ← as_float3 read_weights;
  float3 <$> lift (update_read_vectors m r).

(** Lines 352-358 of [write]. *)
Definition argsort (new_usage_vector : tensor) : outcome tensor :=
  u ← as_float2 new_usage_vector; Ok (Long2 (argsort u)).
Definition LongStorage (sort_list : tensor) : outcome tensor :=
  s ← as_long2 sort_list; Long2 <$> lift (LongStorage s).
Definition input (new_usage_vector sort_list : tensor) : outcome tensor :=
  u ← as_float2 new_usage_vector; s ← as_long2 sort_list;
  Long2 <$> lift (input u (shape2 s).1 (shape2 s).2).
Definition gather (new_usage_vector free_list : tensor) : outcome tensor :=
  u ← as_float2 new_usage_vector; l ← as_long2 free_list;
  float2 <$> lift (gather_1 u l).

Definition write (memory_matrix usage_vector read_weights write_weight precedence_vector
    link_matrix key strength free_gates allocation_gate write_gate write_vector
    erase_vector : tensor) : outcome (tensor * tensor * tensor * tensor * tensor) :=
  lookup_weight ← get_content_address memory_matrix key strength;
  new_usage_vector ← update_usage_vector usage_vector read_weights write_weight free_gates;
  sort_list ← argsort new_usage_vector;
  free_list ← LongStorage sort_list;
  free_list ← input new_usage_vector sort_list;
  sorted_usage ← gather new_usage_vector free_list;
  allocation_weight ← get_allocation_weight sorted_usage free_list;
  new_write_weight ←
    update_write_weight lookup_weight allocation_weight write_gate allocation_gate;
  new_memory_matrix ← update_memory memory_matrix new_write_weight write_vector erase_vector;
  new_link_matrix ← update_link_matrix precedence_vector link_matrix new_write_weight;
  new_precedence_vector ← update_precedence_vector precedence_vector new_write_weight;
  Ok (new_usage_vector, new_write_weight, new_memory_matrix, new_link_matrix,
      new_precedence_vector).

Definition read (memory_matrix read_weights keys strengths link_matrix read_modes : tensor) :
    outcome (tensor * tensor) :=
  lookup_weight ← get_content_address memory_matrix keys strengths;
  weights ← get_directional_weights read_weights link_matrix;
  new_read_weights ← update_read_weights lookup_weight weights.1 weights.2 read_modes;
  new_read_vectors ← update_read_vectors memory_matrix new_read_weights;
  Ok (new_read_weights, new_read_vectors).

End T.
End T.

(** The methods on references. *)
Section Methods.
Variable cosine_distance : tensor3 Qc → tensor3 Qc → option (tensor3 Qc).
Variable softmax : tensor3 Qc → nat → option (tensor3 Qc).
Variable self : Memory.

Definition init_memory : run (ref * ref * ref * ref * ref * ref * ref) :=
  let B := batch_size self in
  let N := mem_slot self in
  let W := mem_size self in
  let R := read_heads self in
  mem_mat ← zeros_3 B N W ≫= λ t, fill_ t eps6;
  mem_usage ← zeros_2 B N;
  pre_vec ← zeros_2 B N;
  link_mat ← zeros_3 B N N;
  write_weight ← zeros_2 B N ≫= λ t, fill_ t eps6;
  read_weight ← zeros_3 B N R ≫= λ t, fill_ t eps6;
  read_vec ← zeros_3 B W R ≫= λ t, fill_ t eps6;
  mret (mem_mat, mem_usage, pre_vec, link_mat, write_weight, read_weight, read_vec).

Definition get_content_address : ref → ref → ref → run ref :=
  call3 (T.get_content_address cosine_distance softmax).
Definition update_usage_vector : ref → ref → ref → ref → run ref :=
  call4 T.update_usage_vector.

(** [get_allocation_weight], statement by statement: line 113 writes in
    place, and so would line 125. *)
Definition get_allocation_weight (sorted_usage free_list : ref) : run ref :=
  su ← load sorted_usage ≫= λ v, of_outcome (as_float2 v);
  (* line 112 *)
  usage_0 ← of_outcome (lift (su !! 0%nat));
  quotients ← of_outcome (lift (pointwise2 fdiv (cumprod_1 su) [usage_0]));
  shifted_cumprod ← new (Float2 quotients);
  (* line 113 *)
  sc ← load shifted_cumprod ≫= λ v, of_outcome (as_xfloat2 v);
  shifted_last ← of_outcome (lift (last sc));
  usage_last ← of_outcome (lift (last su));
  quotient ← of_outcome (lift (pointwise1 xdiv shifted_last usage_last));
  _ ← store shifted_cumprod (Float2 (<[(length sc - 1)%nat := quotient]> sc));
  (* line 115 *)
  sc ← load shifted_cumprod ≫= λ v, of_outcome (as_xfloat2 v);
  weights ← of_outcome (lift (pointwise2 xscale (rsub2 1 su) sc));
  unordered_allocation_weight ← new (Float2 weights);
  (* line 117 *)
  fl ← load free_list ≫= λ v, of_outcome (as_long2 v);
  index_mapper ← of_outcome (lift (index_mapper self));
  mapped ← of_outcome (lift (pointwise2 Nat.add fl index_mapper));
  mapped_free_list ← new (Long2 mapped);
  (* lines 118-120 *)
  w ← load unordered_allocation_weight ≫= λ v, of_outcome (as_xfloat2 v);
  flat_unordered_allocation_weight ← new (Float1 (flatten w));
  m ← load mapped_free_list ≫= λ v, of_outcome (as_long2 v);
  flat_mapped_free_list ← new (Long1 (flatten m));
  flat_container ← new (Float1 (Some <$> zeros1 (batch_size self * mem_slot self)));
  (* line 125 *)
  c ← load flat_container ≫= λ v, of_outcome (as_xfloat1 v);
  index ← load flat_mapped_free_list ≫= λ v, of_outcome (as_long1 v);
  src ← load flat_unordered_allocation_weight ≫= λ v, of_outcome (as_xfloat1 v);
  scattered ← of_outcome (lift (scatter_ c index src));
  _ ← store flat_container (Float1 scattered);
  (* line 129 *)
  flat_ordered_weights ← load flat_container ≫= λ v, of_outcome (as_xfloat1 v);
  new (Float2 (view2 (batch_size self) (mem_slot self) flat_ordered_weights)).

Definition update_write_weight : ref → ref → ref → ref → run ref :=
  call4 T.update_write_weight.
Definition update_memory : ref → ref → ref → ref → run ref :=
  call4 T.update_memory.
Definition update_precedence_vector : ref → ref → run ref :=
  call2 T.update_precedence_vector.
Definition update_link_matrix : ref → ref → ref → run ref :=
  call3 (T.update_link_matrix self).
Definition get_directional_weights : ref → ref → run (ref * ref) :=
  call2_pair T.get_directional_weights.
Definition update_read_weights : ref → ref → ref → ref → run ref :=
  call4 T.update_read_weights.
Definition update_read_vectors : ref → ref → run ref :=
  call2 T.update_read_vectors.

Definition write (memory_matrix usage_vector read_weights write_weight precedence_vector
    link_matrix key strength free_gates allocation_gate write_gate write_vector
    erase_vector : ref) : run (ref * ref * ref * ref * ref) :=
  lookup_weight ← get_content_address memory_matrix key strength;
  new_usage_vector ← update_usage_vector usage_vector read_weights write_weight free_gates;
  sort_list ← call1 T.argsort new_usage_vector;
  free_list ← call1 T.LongStorage sort_list;
  free_list ← call2 T.input new_usage_vector sort_list;
  sorted_usage ← call2 T.gather new_usage_vector free_list;
  allocation_weight ← get_allocation_weight sorted_usage free_list;
  new_write_weight ←
    update_write_weight lookup_weight allocation_weight write_gate allocation_gate;
  new_memory_matrix ← update_memory memory_matrix new_write_weight write_vector erase_vector;
  new_link_matrix ← update_link_matrix precedence_vector link_matrix new_write_weight;
  new_precedence_vector ← update_precedence_vector precedence_vector new_write_weight;
  mret (new_usage_vector, new_write_weight, new_memory_matrix, new_link_matrix,
        new_precedence_vector).

Definition read (memory_matrix read_weights keys strengths link_matrix read_modes : ref) :
    run (ref * ref) :=
  lookup_weight ← get_content_address memory_matrix keys strengths;
  weights ← get_directional_weights read_weights link_matrix;
  new_read_weights ← update_read_weights lookup_weight weights.1 weights.2 read_modes;
  new_read_vectors ← update_read_vectors memory_matrix new_read_weights;
  mret (new_read_weights, new_read_vectors).

End Methods.

(** The tensors a call returned, read off the heap it left. *)
Definition deref2 (p : outcome (ref * ref) * heap) : outcome (option tensor * option tensor) :=
  (λ r, (p.2 !! r.1, p.2 !! r.2)) <$> p.1.
Definition deref5 (p : outcome (ref * ref * ref * ref * ref) * heap) :
    outcome (option tensor * option tensor * option tensor * option tensor * option tensor) :=
  (λ r, (p.2 !! r.1.1.1.1, p.2 !! r.1.1.1.2, p.2 !! r.1.1.2, p.2 !! r.1.2, p.2 !! r.2)) <$> p.1.

(** [agrees look h p o]: the computation that ended in [p] from the heap [h]
    only added objects to [h], and it ended as [o] did, the references it
    returned holding the tensors of [o]. *)
Definition agrees {A V} (look : heap → A → option V) (h : heap)
    (p : outcome A * heap) (o : outcome V) : Prop :=
  (∃ k, p.2 = h ++ k) ∧
  match o, p.1 with
  | Ok v, Ok r => look p.2 r = Some v
  | Raised, Raised => True
  | NotFinite, NotFinite => True
  | _, _ => False
  end.

Definition look1 (h : heap) (r : ref) : option tensor := h !! r.
Definition look2 (h : heap) (r : ref * ref) : option (tensor * tensor) :=
  a ← h !! r.1; b ← h !! r.2; Some (a, b).
Definition look5 (h : heap) (r : ref * ref * ref * ref * ref) :
    option (tensor * tensor * tensor * tensor * tensor) :=
  a ← h !! r.1.1.1.1; b ← h !! r.1.1.1.2; c ← h !! r.1.1.2; d ← h !! r.1.2; e ← h !! r.2;
  Some (a, b, c, d, e).

End Heap.

(** ** Inputs the theorems are tried on *)

Definition toy_cosine_distance (m k : tensor3 Qc) : option (tensor3 Qc) := Some m.
Definition toy_softmax (t : tensor3 Qc) (axis : nat) : option (tensor3 Qc) := Some t.
Definition toy_self : Memory :=
  {| mem_slot := 1; mem_size := 1; read_heads := 1; batch_size := 1 |}.
Definition toy_heap : list Heap.tensor :=
  [Heap.float3 [[[1]]]; Heap.float3 [[[1]]]; Heap.float3 [[[1]]]; Heap.float2 [[1]]; Heap.float3 [[[0]]];
   Heap.float3 [[[0]; [1]; [0]]]].

(** ** Content addressing over the real numbers

    Modelled from the spec: [cosine_distance] and [softmax] of
    neucom/utils.py, which is not among the sources.  §4.1: the cosine
    similarity is the dot product normalised by the product of the L2 norms
    with a small epsilon added to the denominator; the softmax runs across
    the slot dimension.  The exponential and the square root leave the
    rationals, so this model is over the real numbers; [get_content_address]
    below composes the two as lines 70-74 of the source do. *)

Module Real.
Local Open Scope R_scope.

Definition sum_list (l : list R) : R := foldr Rplus 0 l.
Definition dot (u v : list R) : R := sum_list (zip_with Rmult u v).
Definition norm (u : list R) : R := sqrt (dot u u).

Section ContentAddressing.
Variable epsilon : R.

Definition cosine (u v : list R) : R := dot u v / (norm u * norm v + epsilon).

Definition cosine_distance (memory_matrix keys : tensor3 R) : tensor3 R :=
  zip_with (λ (m k : tensor2 R),
              (λ slot, (λ key, cosine slot key) <$> transpose_0_1 k) <$> m)
           memory_matrix keys.

Definition softmax_slots (m : tensor2 R) : tensor2 R :=
  let z := (λ c : list R, sum_list (exp <$> c)) <$> transpose_0_1 m in
  (λ row : list R, zip_with (λ x zk, exp x / zk) row z) <$> m.
Definition softmax_1 (t : tensor3 R) : tensor3 R := softmax_slots <$> t.

Definition get_content_address (memory_matrix keys : tensor3 R) (strengths : tensor2 R) :
    tensor3 R :=
  let cos_dist := cosine_distance memory_matrix keys in
  let scaled :=
    zip_with (λ (m : tensor2 R) (s : list R), (λ row, zip_with Rmult row s) <$> m)
             cos_dist strengths in
  softmax_1 scaled.
End ContentAddressing.
End Real.

(** ** Ranges of gates and weightings

    The docstrings of the class call gates fractions and weightings
    distributions over the slots; the two predicates below say so for exact
    numbers. *)

(** A number between 0 and 1. *)
Definition in_unit (x : Qc) : Prop := 0 ≤ x ∧ x ≤ 1.
Global Instance in_unit_dec x : Decision (in_unit x) := _.

(** Non-negative entries that sum to at most 1. *)
Definition sub_distribution (l : list Qc) : Prop :=
  Forall (λ x, 0 ≤ x) l ∧ sum_list l ≤ 1.
Global Instance sub_distribution_dec l : Decision (sub_distribution l) := _.

(** * Facts about the operators *)

Section broadcast_facts.
Import Torch.
Context {A B C : Type}.
Implicit Types (f : A → B → option C) (g : A → B → C).

Lemma mapM_lookup_Some {X Y} (h : X → option Y) l k i z :
  mapM h l = Some k → k !! i = Some z → ∃ x, l !! i = Some x ∧ h x = Some z.
Proof.
  intros Hm Hz. apply mapM_Some_1 in Hm.
  destruct (Forall2_lookup_r _ _ _ _ _ Hm Hz) as (x & ? & ?). eauto.
Qed.

Lemma broadcast_lookup f xs ys zs i z :
  broadcast f xs ys = Some zs → zs !! i = Some z →
  ∃ x y, xs !! bidx xs i = Some x ∧ ys !! bidx ys i = Some y ∧ f x y = Some z.
Proof.
  unfold broadcast, bidx. intros Hb Hz. case_decide as Hlen.
  - destruct (mapM_lookup_Some _ _ _ _ _ Hb Hz) as ([x y] & Hxy & Hf).
    apply lookup_zip_with_Some in Hxy as (x' & y' & [= <- <-] & Hx & Hy).
    assert (length zs = length xs) as Hzs.
    { apply length_mapM in Hb. rewrite length_zip in Hb. lia. }
    assert (i < length zs)%nat by eauto using lookup_lt_Some.
    exists x, y. repeat case_decide; try (replace i with 0%nat in * by lia); eauto.
  - destruct xs as [|x [|]]; [destruct ys as [|y [|]]; try done| |].
    + apply mapM_Some_1 in Hb. inversion Hb; subst. by rewrite lookup_nil in Hz.
    + destruct (mapM_lookup_Some _ _ _ _ _ Hb Hz) as (y & Hy & Hf).
      exists x, y. rewrite decide_True by done.
      rewrite decide_False by done. eauto.
    + destruct ys as [|y [|]]; try done.
      destruct (mapM_lookup_Some _ _ _ _ _ Hb Hz) as (x' & Hx & Hf).
      exists x', y. rewrite decide_False by done.
      rewrite decide_True by done. eauto.
Qed.

Lemma broadcast_zip f g xs ys :
  Forall2 (λ x y, f x y = Some (g x y)) xs ys →
  broadcast f xs ys = Some (zip_with g xs ys).
Proof.
  intros H. unfold broadcast. rewrite decide_True by eauto using Forall2_length.
  apply mapM_Some_2. induction H; simpl; constructor; auto.
Qed.

Lemma broadcast_l f (h : B → C) x ys :
  Forall (λ y, f x y = Some (h y)) ys → broadcast f [x] ys = Some (h <$> ys).
Proof.
  intros H. unfold broadcast. case_decide as Hlen.
  - destruct ys as [|y [|]]; try done. apply Forall_cons in H as [H _].
    simpl. by rewrite H.
  - apply mapM_Some_2, Forall2_fmap_r, Forall_Forall2_diag. done.
Qed.

End broadcast_facts.


Section pointwise_facts.
Context {A B C : Type}.
Implicit Types (f : A → B → C).

Lemma pointwise1_zip f xs ys :
  length xs = length ys → pointwise1 f xs ys = Some (zip_with f xs ys).
Proof. intros. apply broadcast_zip. by apply Forall2_true. Qed.

Lemma pointwise2_zip f (a : tensor2 A) (b : tensor2 B) :
  Forall2 (λ r s, length r = length s) a b →
  pointwise2 f a b = Some (zip_with (zip_with f) a b).
Proof.
  intros H. apply broadcast_zip. eapply Forall2_impl; [done|].
  intros. by apply pointwise1_zip.
Qed.

Lemma pointwise3_zip f (a : tensor3 A) (b : tensor3 B) :
  Forall2 (Forall2 (λ r s, length r = length s)) a b →
  pointwise3 f a b = Some (zip_with (zip_with (zip_with f)) a b).
Proof.
  intros H. apply broadcast_zip. eapply Forall2_impl; [done|].
  intros. by apply pointwise2_zip.
Qed.

Lemma pointwise1_lookup f xs ys zs i z :
  pointwise1 f xs ys = Some zs → zs !! i = Some z →
  ∃ x y, xs !! bidx xs i = Some x ∧ ys !! bidx ys i = Some y ∧ z = f x y.
Proof.
  intros H Hz. destruct (broadcast_lookup _ _ _ _ _ _ H Hz) as (x & y & ? & ? & ?).
  exists x, y. by simplify_eq.
Qed.

Lemma pointwise2_get f (a : tensor2 A) (b : tensor2 B) c i j z :
  pointwise2 f a b = Some c → get2 c i j = Some z →
  ∃ r s x y, a !! bidx a i = Some r ∧ b !! bidx b i = Some s ∧
    r !! bidx r j = Some x ∧ s !! bidx s j = Some y ∧ z = f x y.
Proof.
  unfold get2. intros H Hz. apply bind_Some in Hz as (t & Ht & Hz).
  destruct (broadcast_lookup _ _ _ _ _ _ H Ht) as (r & s & ? & ? & H1).
  destruct (pointwise1_lookup _ _ _ _ _ _ H1 Hz) as (x & y & ? & ? & ?).
  exists r, s, x, y. done.
Qed.

Lemma pointwise3_get f (a : tensor3 A) (b : tensor3 B) c n i j z :
  pointwise3 f a b = Some c → get3 c n i j = Some z →
  ∃ m1 m2 r s x y, a !! bidx a n = Some m1 ∧ b !! bidx b n = Some m2 ∧
    m1 !! bidx m1 i = Some r ∧ m2 !! bidx m2 i = Some s ∧
    r !! bidx r j = Some x ∧ s !! bidx s j = Some y ∧ z = f x y.
Proof.
  unfold get3. intros H Hz. apply bind_Some in Hz as (t & Ht & Hz).
  destruct (broadcast_lookup _ _ _ _ _ _ H Ht) as (m1 & m2 & ? & ? & H1).
  destruct (pointwise2_get _ _ _ _ _ _ _ H1 Hz) as (r & s & x & y & ? & ? & ? & ? & ?).
  by exists m1, m2, r, s, x, y.
Qed.
End pointwise_facts.

Lemma length_eye n : length (eye n) = n.
Proof. unfold eye. by rewrite length_fmap, length_seq. Qed.

Lemma mask_diagonal n i r x :
rsub2 1 (eye n) !! bidx (rsub2 1 (eye n)) i = Some r → r !! bidx r i = Some x → x = 0.
Proof.
unfold bidx, rsub2. rewrite length_fmap, length_eye. unfold eye.
intros Hr Hx.
rewrite !list_lookup_fmap in Hr.
destruct (seq 0 n !! _) as [k|] eqn:Hk; [|done]. simpl in Hr. simplify_eq.
apply lookup_seq in Hk as [-> Hk]. simpl in Hx.
rewrite !length_fmap, length_seq in Hx. rewrite !list_lookup_fmap in Hx.
destruct (seq 0 n !! _) as [k|] eqn:Hk'; [|done]. simpl in Hx. simplify_eq.
apply lookup_seq in Hk' as [-> Hk']. simpl.
rewrite (decide_True (P:=_ = _)) by done. ring.
Qed.

Section shape_facts.
Context {A B C : Type}.

Lemma has_shape2_Forall2 n m (a : tensor2 A) (b : tensor2 B) :
  has_shape2 n m a → has_shape2 n m b → Forall2 (λ r s, length r = length s) a b.
Proof.
  intros [Ha Hra] [Hb Hrb]. apply Forall2_same_length_lookup_2; [congruence|].
  intros i r s Hr Hs.
  rewrite Forall_lookup in Hra. rewrite Forall_lookup in Hrb.
  rewrite (Hra _ _ Hr), (Hrb _ _ Hs). done.
Qed.

Lemma has_shape3_Forall2 n m k (a : tensor3 A) (b : tensor3 B) :
  has_shape3 n m k a → has_shape3 n m k b →
  Forall2 (Forall2 (λ r s, length r = length s)) a b.
Proof.
  intros [Ha Hra] [Hb Hrb]. apply Forall2_same_length_lookup_2; [congruence|].
  intros i r s Hr Hs.
  rewrite Forall_lookup in Hra. rewrite Forall_lookup in Hrb.
  eapply has_shape2_Forall2; eauto.
Qed.

Lemma has_shape1_zip_with (f : A → B → C) n xs ys :
  length xs = n → length ys = n → length (zip_with f xs ys) = n.
Proof. intros. rewrite length_zip_with. lia. Qed.

Lemma has_shape2_zip_with (f : A → B → C) n m (a : tensor2 A) (b : tensor2 B) :
  has_shape2 n m a → has_shape2 n m b → has_shape2 n m (zip_with (zip_with f) a b).
Proof.
  intros [Ha Hra] [Hb Hrb]. split; [rewrite length_zip_with; lia|].
  rewrite Forall_lookup in Hra. rewrite Forall_lookup in Hrb.
  apply Forall_lookup. intros i r Hr.
  apply lookup_zip_with_Some in Hr as (x & y & -> & ? & ?).
  apply has_shape1_zip_with; eauto.
Qed.

Lemma has_shape3_zip_with (f : A → B → C) n m k (a : tensor3 A) (b : tensor3 B) :
  has_shape3 n m k a → has_shape3 n m k b →
  has_shape3 n m k (zip_with (zip_with (zip_with f)) a b).
Proof.
  intros [Ha Hra] [Hb Hrb]. split; [rewrite length_zip_with; lia|].
  rewrite Forall_lookup in Hra. rewrite Forall_lookup in Hrb.
  apply Forall_lookup. intros i r Hr.
  apply lookup_zip_with_Some in Hr as (x & y & -> & ? & ?).
  apply has_shape2_zip_with; eauto.
Qed.

Lemma has_shape2_fmap (f : A → B) n m (a : tensor2 A) :
  has_shape2 n m a → has_shape2 n m ((λ r : list A, f <$> r) <$> a).
Proof.
  intros [Ha Hra]. split; [by rewrite length_fmap|].
  apply Forall_fmap. eapply Forall_impl; [done|]. intros r Hr. simpl.
  by rewrite length_fmap.
Qed.

Lemma has_shape3_fmap (f : tensor2 A → tensor2 B) n m k m' k' (a : tensor3 A) :
  (∀ x, has_shape2 m k x → has_shape2 m' k' (f x)) →
  has_shape3 n m k a → has_shape3 n m' k' (f <$> a).
Proof.
  intros Hf [Ha Hra]. split; [by rewrite length_fmap|].
  apply Forall_fmap. eapply Forall_impl; [done|]. intros r Hr. by apply Hf.
Qed.

Lemma has_shape2_expand_dims_2 n m (a : tensor2 A) :
  has_shape2 n m a → has_shape3 n m 1 (expand_dims_2 a).
Proof.
  unfold expand_dims_2. intros [Ha Hra]. split; [by rewrite length_fmap|].
  apply Forall_fmap. eapply Forall_impl; [done|]. intros r Hr. simpl.
  split; [by rewrite length_fmap|]. apply Forall_fmap. by apply Forall_true.
Qed.
End shape_facts.

Lemma has_shape2_rsub2 c n m a : has_shape2 n m a → has_shape2 n m (rsub2 c a).
Proof. apply has_shape2_fmap. Qed.
Lemma has_shape3_rsub3 c n m k a : has_shape3 n m k a → has_shape3 n m k (rsub3 c a).
Proof. apply has_shape3_fmap. intros. by apply has_shape2_rsub2. Qed.

Lemma has_shape2_eye n : has_shape2 n n (eye n).
Proof.
split; [apply length_eye|]. unfold eye. apply Forall_fmap, Forall_true.
intros i. simpl. by rewrite length_fmap, length_seq.
Qed.

Lemma length_concat_singletons {A} (m : tensor2 A) n :
has_shape2 n 1 m → length (concat m) = n.
Proof.
intros [<- H]. induction H as [|r m Hr H IH]; [done|].
simpl. rewrite length_app, IH, Hr. done.
Qed.

Lemma has_shape3_pairwise_add n m u :
has_shape3 n m 1 u → has_shape3 n m m (pairwise_add u).
Proof.
unfold pairwise_add. apply has_shape3_fmap. intros x Hx.
pose proof (length_concat_singletons _ _ Hx) as Hl.
split; [by rewrite length_fmap|]. apply Forall_fmap, Forall_true. intros y.
simpl. by rewrite length_fmap.
Qed.

Lemma transpose_0_1_row {A} (r : list A) : transpose_0_1 [r] = (λ y, [y]) <$> r.
Proof.
unfold transpose_0_1, column. simpl. apply list_eq. intros j.
rewrite !list_lookup_fmap. destruct (r !! j) as [y|] eqn:Hy.
- rewrite (lookup_seq_lt _ _ j) by eauto using lookup_lt_Some.
  simpl. by rewrite Hy.
- rewrite lookup_seq_ge; [done|]. by apply lookup_ge_None.
Qed.

Lemma matmul_outer (wr pr : list Qc) :
matmul ((λ x, [x]) <$> wr) [pr] = Some ((λ x, (λ y, x * y + 0) <$> pr) <$> wr).
Proof.
unfold matmul.
replace (forallb _ _) with true.
2:{ symmetry. apply forallb_forall. intros r Hr. apply in_map_iff in Hr as (x & <- & _). done. }
f_equal. rewrite transpose_0_1_row, <-list_fmap_compose. apply list_fmap_ext.
intros _ x _. simpl. rewrite <-list_fmap_compose. by apply list_fmap_ext.
Qed.

Lemma outer_product_outer (w p : tensor2 Qc) :
length w = length p → Spec.outer_product w p = Some (outer w p).
Proof.
intros Hl. unfold Spec.outer_product, Spec.bmm, expand_dims_1, expand_dims_2, outer.
rewrite decide_True by (by rewrite !length_fmap).
apply mapM_Some_2. revert p Hl. induction w as [|wr w IH]; intros [|pr p] Hl; try done.
simpl. constructor; [apply matmul_outer|]. apply IH. simpl in Hl. lia.
Qed.

Lemma has_shape3_outer n m k w p :
has_shape2 n m w → has_shape2 n k p → has_shape3 n m k (outer w p).
Proof.
intros [Hw Hrw] [Hp Hrp]. split; [unfold outer; rewrite length_zip_with; lia|].
rewrite Forall_lookup in Hrw. rewrite Forall_lookup in Hrp.
apply Forall_lookup. intros i r Hr.
apply lookup_zip_with_Some in Hr as (x & y & -> & ? & ?).
split; [rewrite length_fmap; eauto|]. apply Forall_fmap, Forall_true. intros z. simpl.
rewrite length_fmap. eauto.
Qed.

Section get_facts.
Context {A B C : Type}.

Lemma get2_zip_with (f : A → B → C) (a : tensor2 A) (b : tensor2 B) i j :
  get2 (zip_with (zip_with f) a b) i j =
  x ← get2 a i j; y ← get2 b i j; Some (f x y).
Proof.
  unfold get2. rewrite lookup_zip_with.
  destruct (a !! i) as [r|]; simpl; [|done].
  destruct (b !! i) as [s|]; simpl; [|by destruct (r !! j)].
  by rewrite lookup_zip_with.
Qed.

Lemma get3_zip_with (f : A → B → C) (a : tensor3 A) (b : tensor3 B) n i j :
  get3 (zip_with (zip_with (zip_with f)) a b) n i j =
  x ← get3 a n i j; y ← get3 b n i j; Some (f x y).
Proof.
  unfold get3. rewrite lookup_zip_with.
  destruct (a !! n) as [r|]; simpl; [|done].
  destruct (b !! n) as [s|]; simpl; [|by destruct (get2 r i j)].
  by rewrite get2_zip_with.
Qed.

Lemma get2_fmap (f : A → B) (a : tensor2 A) i j :
  get2 ((λ r : list A, f <$> r) <$> a) i j = f <$> get2 a i j.
Proof.
  unfold get2. rewrite list_lookup_fmap. destruct (a !! i) as [r|]; simpl; [|done].
  by rewrite list_lookup_fmap.
Qed.

Lemma get2_is_Some n m (a : tensor2 A) i j :
  has_shape2 n m a → (i < n)%nat → (j < m)%nat → is_Some (get2 a i j).
Proof.
  intros [Ha Hra] Hi Hj. unfold get2.
  destruct (lookup_lt_is_Some_2 a i) as [r Hr]; [lia|]. rewrite Hr. simpl.
  rewrite Forall_lookup in Hra. apply lookup_lt_is_Some_2. by rewrite (Hra _ _ Hr).
Qed.

Lemma get3_is_Some n m k (a : tensor3 A) b i j :
  has_shape3 n m k a → (b < n)%nat → (i < m)%nat → (j < k)%nat → is_Some (get3 a b i j).
Proof.
  intros [Ha Hra] Hb Hi Hj. unfold get3.
  destruct (lookup_lt_is_Some_2 a b) as [r Hr]; [lia|]. rewrite Hr. simpl.
  rewrite Forall_lookup in Hra. eapply get2_is_Some; eauto.
Qed.

Lemma get2_Some_lt n m (a : tensor2 A) i j x :
  has_shape2 n m a → get2 a i j = Some x → (i < n)%nat ∧ (j < m)%nat.
Proof.
  intros [Ha Hra]. unfold get2. intros H. apply bind_Some in H as (r & Hr & Hx).
  rewrite Forall_lookup in Hra. split.
  - rewrite <-Ha. eauto using lookup_lt_Some.
  - rewrite <-(Hra _ _ Hr). eauto using lookup_lt_Some.
Qed.

Lemma get3_Some_lt n m k (a : tensor3 A) b i j x :
  has_shape3 n m k a → get3 a b i j = Some x → (b < n)%nat ∧ (i < m)%nat ∧ (j < k)%nat.
Proof.
  intros [Ha Hra]. unfold get3. intros H. apply bind_Some in H as (r & Hr & Hx).
  rewrite Forall_lookup in Hra. split.
  - rewrite <-Ha. eauto using lookup_lt_Some.
  - eapply get2_Some_lt; eauto.
Qed.

Lemma tensor2_ext n m (a b : tensor2 A) :
  has_shape2 n m a → has_shape2 n m b →
  (∀ i j, get2 a i j = get2 b i j) → a = b.
Proof.
  intros [Ha Hra] [Hb Hrb] H. apply list_eq. intros i.
  destruct (decide (i < n)%nat).
  - destruct (lookup_lt_is_Some_2 a i) as [r Hr]; [lia|].
    destruct (lookup_lt_is_Some_2 b i) as [s Hs]; [lia|].
    rewrite Hr, Hs. f_equal. apply list_eq. intros j.
    specialize (H i j). unfold get2 in H. by rewrite Hr, Hs in H.
  - rewrite !(proj2 (lookup_ge_None _ _)); [done|lia..].
Qed.

Lemma tensor3_ext n m k (a b : tensor3 A) :
  has_shape3 n m k a → has_shape3 n m k b →
  (∀ b' i j, get3 a b' i j = get3 b b' i j) → a = b.
Proof.
  intros [Ha Hra] [Hb Hrb] H. apply list_eq. intros i.
  destruct (decide (i < n)%nat).
  - destruct (lookup_lt_is_Some_2 a i) as [r Hr]; [lia|].
    destruct (lookup_lt_is_Some_2 b i) as [s Hs]; [lia|].
    rewrite Hr, Hs. f_equal.
    rewrite Forall_lookup in Hra. rewrite Forall_lookup in Hrb.
    eapply tensor2_ext; eauto. intros i' j.
    specialize (H i i' j). unfold get3 in H. by rewrite Hr, Hs in H.
  - rewrite !(proj2 (lookup_ge_None _ _)); [done|lia..].
Qed.
End get_facts.

Lemma get3_rsub3 c a n i j : get3 (rsub3 c a) n i j = Qcminus c <$> get3 a n i j.
Proof.
unfold get3, rsub3. rewrite list_lookup_fmap. destruct (a !! n) as [m|]; simpl; [|done].
apply get2_fmap.
Qed.

Lemma get3_outer w p n i j :
get3 (outer w p) n i j = x ← get2 w n i; y ← get2 p n j; Some (x * y + 0).
Proof.
unfold get3, get2, outer. rewrite lookup_zip_with.
destruct (w !! n) as [wr|]; simpl; [|done].
destruct (p !! n) as [pr|]; simpl; [|by destruct (wr !! i)].
rewrite list_lookup_fmap. destruct (wr !! i) as [x|]; simpl; [|done].
rewrite list_lookup_fmap. by destruct (pr !! j).
Qed.

Lemma get2_Forall {A} (P : A → Prop) (t : tensor2 A) i j x :
Forall (Forall P) t → get2 t i j = Some x → P x.
Proof.
unfold get2. intros H Hx. apply bind_Some in Hx as (r & Hr & Hx).
rewrite Forall_lookup in H. specialize (H _ _ Hr).
rewrite Forall_lookup in H. eauto.
Qed.



Lemma pointwise3_unsqueeze {A B C} (f : A → B → C) n m k (x : tensor2 A) (u : tensor3 B) :
has_shape2 m k x → has_shape3 n m k u →
pointwise3 f [x] u = Some (zip_with (zip_with f) x <$> u).
Proof.
intros Hx [_ Hu]. apply broadcast_l. eapply Forall_impl; [done|].
intros y Hy. simpl. apply pointwise2_zip. eauto using has_shape2_Forall2.
Qed.

Lemma update_link_matrix_diagonal_zero N precedence_vector link_matrix write_weight
  new_link_matrix b i x :
Spec.update_link_matrix N precedence_vector link_matrix write_weight = Some new_link_matrix →
get3 new_link_matrix b i i = Some x → x = 0.
Proof.
unfold Spec.update_link_matrix. intros H Hx.
apply bind_Some in H as (kept & _ & H).
apply bind_Some in H as (outer' & _ & H).
apply bind_Some in H as (updated & _ & H).
destruct (pointwise3_get _ _ _ _ _ _ _ _ H Hx)
  as (m1 & m2 & r & s & x1 & y1 & Hm1 & _ & Hr & _ & Hx1 & _ & ->).
unfold bidx in Hm1 at 1. simpl in Hm1. simplify_eq.
rewrite (mask_diagonal _ _ _ _ Hr Hx1). ring.
Qed.

Lemma update_link_matrix_total N B precedence_vector link_matrix write_weight :
has_shape2 B N precedence_vector →
has_shape3 B N N link_matrix →
has_shape2 B N write_weight →
∃ new_link_matrix,
  Spec.update_link_matrix N precedence_vector link_matrix write_weight = Some new_link_matrix
  ∧ has_shape3 B N N new_link_matrix.
Proof.
intros Hp Hl Hw. unfold Spec.update_link_matrix.
assert (has_shape3 B N N (rsub3 1 (pairwise_add (expand_dims_2 write_weight)))) as Hs1
  by eauto using has_shape3_rsub3, has_shape3_pairwise_add, has_shape2_expand_dims_2.
assert (has_shape3 B N N (outer write_weight precedence_vector)) as Hs2
  by eauto using has_shape3_outer.
assert (has_shape2 N N (rsub2 1 (eye N))) as Hs3
  by apply has_shape2_rsub2, has_shape2_eye.
rewrite outer_product_outer by (destruct Hw, Hp; congruence). simpl.
rewrite pointwise3_zip by eauto using has_shape3_Forall2. simpl.
rewrite pointwise3_zip by eauto using has_shape3_Forall2, has_shape3_zip_with. simpl.
erewrite pointwise3_unsqueeze by eauto using has_shape3_zip_with.
eexists. split; [done|].
eapply has_shape3_fmap; [|eauto using has_shape3_zip_with].
intros y Hy. by apply has_shape2_zip_with.
Qed.

(** * The initial state *)

Lemma fill_1_zeros c n : fill_1 c (zeros1 n) = replicate n c.
Proof. unfold fill_1, zeros1. by rewrite fmap_replicate. Qed.
Lemma fill_2_zeros c b n : fill_2 c (zeros2 b n) = replicate b (replicate n c).
Proof. unfold fill_2, zeros2. by rewrite fmap_replicate, fill_1_zeros. Qed.
Lemma fill_3_zeros c b n m : fill_3 c (zeros3 b n m) = replicate b (replicate n (replicate m c)).
Proof. unfold fill_3, zeros3. by rewrite fmap_replicate, fill_2_zeros. Qed.

Lemma sum_list_replicate n c : sum_list (replicate n c) = Qc_of_Z (Z.of_nat n) * c.
Proof.
  induction n as [|n IH].
  { change (Z.of_nat 0) with 0%Z. rewrite Z2Qc_inj_0. unfold sum_list. simpl. ring. }
  rewrite Nat2Z.inj_succ, <-Z.add_1_r, Z2Qc_inj_add, Z2Qc_inj_1.
  unfold sum_list in *. simpl. rewrite IH. ring.
Qed.

Lemma column_replicate {A} h n m (c : A) :
  (h < m)%nat → column h (replicate n (replicate m c)) = replicate n c.
Proof.
  intros Hh. unfold column. induction n as [|n IH]; [done|].
  simpl. rewrite lookup_replicate_2 by done. simpl. f_equal. apply IH.
Qed.

(** No whole number of copies of [eps6] adds up to 1: its numerator is odd
    and its denominator is a power of two. *)
Lemma slots_times_eps6 n : Qc_of_Z n * eps6 ≠ 1.
Proof.
  assert (eps6 * Qc_of_Z 8796093022208 = Qc_of_Z 8796093) as He
    by (apply (bool_decide_eq_true_1 _); by vm_compute).
  intros H.
  assert (Qc_of_Z (n * 8796093) = Qc_of_Z 8796093022208) as Hz.
  { rewrite Z2Qc_inj_mul, <-He, Qcmult_assoc, H. ring. }
  apply Z2Qc_inj in Hz.
  assert ((n * 8796093) mod 8796093 = 8796093022208 mod 8796093)%Z as Hm by (by rewrite Hz).
  rewrite Z.mod_mul in Hm by done. vm_compute in Hm. discriminate Hm.
Qed.

(** * Allocation weighting *)

Lemma broadcast_r {A B C} (f : A → B → option C) (h : A → C) xs y :
  Forall (λ x, f x y = Some (h x)) xs → broadcast f xs [y] = Some (h <$> xs).
Proof.
  intros H. unfold broadcast. case_decide as Hlen.
  - destruct xs as [|x [|]]; try done. apply Forall_cons in H as [H _].
    simpl. by rewrite H.
  - assert (mapM (λ x, f x y) xs = Some (h <$> xs)) as Hm
      by by apply mapM_Some_2, Forall2_fmap_r, Forall_Forall2_diag.
    destruct xs as [|x [|]]; done.
Qed.

Lemma pointwise2_row {A B C} (f : A → B → C) n m (a : tensor2 A) (y : list B) :
  has_shape2 n m a → length y = m →
  pointwise2 f a [y] = Some ((λ r, zip_with f r y) <$> a).
Proof.
  intros [_ Ha] Hy. apply broadcast_r. eapply Forall_impl; [done|].
  intros r Hr. simpl in *. apply pointwise1_zip. congruence.
Qed.

Lemma length_cumprod_from acc l : length (cumprod_from acc l) = length l.
Proof. revert acc. induction l; intros; simpl; auto. Qed.

Lemma has_shape2_cumprod_1 n m a : has_shape2 n m a → has_shape2 n m (cumprod_1 a).
Proof.
  intros [Ha Hra]. split; [unfold cumprod_1; by rewrite length_fmap|].
  apply Forall_fmap. eapply Forall_impl; [done|]. intros r Hr. simpl.
  by rewrite length_cumprod_from.
Qed.

Lemma has_shape2_insert {A} n m (a : tensor2 A) i r :
  has_shape2 n m a → length r = m → has_shape2 n m (<[i:=r]> a).
Proof.
  intros [Ha Hra] Hr. split; [by rewrite length_insert|].
  destruct (decide (i < length a)%nat).
  - by apply Forall_insert.
  - rewrite list_insert_ge by lia. done.
Qed.

Lemma has_shape2_lookup {A} n m (a : tensor2 A) i r :
  has_shape2 n m a → a !! i = Some r → length r = m.
Proof. intros [_ Ha] Hr. rewrite Forall_lookup in Ha. eauto. Qed.

Lemma unordered_allocation_weight_eq B N sorted_usage usage_0 usage_last :
  has_shape2 B N sorted_usage →
  sorted_usage !! 0%nat = Some usage_0 →
  last sorted_usage = Some usage_last →
  unordered_allocation_weight sorted_usage =
    Some (zip_with (zip_with xscale) (rsub2 1 sorted_usage)
            (shifted_cumprod_113 sorted_usage usage_0 usage_last)).
Proof.
  intros Hs H0 Hl. unfold unordered_allocation_weight. rewrite H0. simpl.
  assert (length usage_0 = N) as Hl0 by eauto using has_shape2_lookup.
  assert (length usage_last = N) as Hll.
  { rewrite last_lookup in Hl. eauto using has_shape2_lookup. }
  assert (has_shape2 B N (shifted_cumprod_112 sorted_usage usage_0)) as Hs112.
  { destruct (has_shape2_cumprod_1 _ _ _ Hs) as [Hc Hrc].
    split; [unfold shifted_cumprod_112; by rewrite length_fmap|].
    apply Forall_fmap. eapply Forall_impl; [done|]. intros r Hr. simpl in *.
    rewrite length_zip_with. lia. }
  rewrite (pointwise2_row _ B N) by eauto using has_shape2_cumprod_1. simpl.
  fold (shifted_cumprod_112 sorted_usage usage_0).
  destruct (last (shifted_cumprod_112 sorted_usage usage_0)) as [sl|] eqn:Hsl.
  2:{ rewrite last_None in Hsl. destruct Hs112 as [Hlen _], Hs as [Hlen' _].
      rewrite Hsl in Hlen. simpl in Hlen. subst B.
      by destruct sorted_usage. }
  simpl. rewrite Hl. simpl.
  assert (length sl = N) as Hlsl.
  { rewrite last_lookup in Hsl. eauto using has_shape2_lookup. }
  rewrite pointwise1_zip by congruence. simpl.
  unfold shifted_cumprod_113. rewrite Hsl. simpl.
  apply pointwise2_zip. eapply has_shape2_Forall2; [by apply has_shape2_rsub2|].
  apply has_shape2_insert; [done|]. rewrite length_zip_with. lia.
Qed.


Lemma get2_insert {A} (t : tensor2 A) k r b p :
  (k < length t)%nat →
  get2 (<[k:=r]> t) b p = if decide (b = k) then r !! p else get2 t b p.
Proof.
  intros Hk. unfold get2. case_decide as Hb.
  - subst. by rewrite list_lookup_insert_eq.
  - by rewrite list_lookup_insert_ne.
Qed.

Lemma get2_shifted_cumprod_112 sorted_usage usage_0 b p :
  get2 (shifted_cumprod_112 sorted_usage usage_0) b p =
  c ← get2 (cumprod_1 sorted_usage) b p; d ← usage_0 !! p; Some (fdiv c d).
Proof.
  unfold get2, shifted_cumprod_112. rewrite list_lookup_fmap.
  destruct (cumprod_1 sorted_usage !! b) as [r|]; simpl; [|done].
  by rewrite lookup_zip_with.
Qed.

Lemma get2_unordered B N sorted_usage usage_0 usage_last b p :
  has_shape2 B N sorted_usage →
  sorted_usage !! 0%nat = Some usage_0 →
  last sorted_usage = Some usage_last →
  (b < B)%nat → (p < N)%nat →
  ∃ u c d0 dl,
    get2 sorted_usage b p = Some u ∧ get2 (cumprod_1 sorted_usage) b p = Some c
    ∧ usage_0 !! p = Some d0 ∧ usage_last !! p = Some dl
    ∧ get2 (zip_with (zip_with xscale) (rsub2 1 sorted_usage)
              (shifted_cumprod_113 sorted_usage usage_0 usage_last)) b p
      = Some (xscale (1 - u)
                (if decide (b = B - 1)%nat then xdiv (fdiv c d0) dl else fdiv c d0)).
Proof.
  intros Hs H0 Hl Hb Hp.
  assert (length usage_0 = N) as Hl0 by eauto using has_shape2_lookup.
  assert (length usage_last = N) as Hll.
  { rewrite last_lookup in Hl. eauto using has_shape2_lookup. }
  destruct (get2_is_Some _ _ _ b p Hs) as [u Hu]; [done..|].
  destruct (get2_is_Some _ _ _ b p (has_shape2_cumprod_1 _ _ _ Hs)) as [c Hc]; [done..|].
  destruct (lookup_lt_is_Some_2 usage_0 p) as [d0 Hd0]; [lia|].
  destruct (lookup_lt_is_Some_2 usage_last p) as [dl Hdl]; [lia|].
  exists u, c, d0, dl. split_and!; try done.
  assert (length (shifted_cumprod_112 sorted_usage usage_0) = B) as Hlen.
  { unfold shifted_cumprod_112, cumprod_1. rewrite !length_fmap. by destruct Hs. }
  rewrite get2_zip_with. unfold rsub2 at 1. rewrite get2_fmap, Hu. simpl.
  unfold shifted_cumprod_113. rewrite get2_insert by lia. rewrite Hlen.
  case_decide as Hlast.
  - rewrite last_lookup, Hlen. rewrite lookup_zip_with.
    replace (Init.Nat.pred B) with b by lia.
    pose proof (get2_shifted_cumprod_112 sorted_usage usage_0 b p) as Hg.
    rewrite Hc in Hg. simpl in Hg. rewrite Hd0 in Hg. simpl in Hg.
    unfold get2 in Hg. destruct (shifted_cumprod_112 _ _ !! b) as [sl|]; [|done].
    simpl in *. rewrite Hg. simpl. by rewrite Hdl.
  - rewrite get2_shifted_cumprod_112, Hc. simpl. by rewrite Hd0.
Qed.

Lemma has_shape2_shifted_cumprod_112 B N sorted_usage usage_0 :
  has_shape2 B N sorted_usage → length usage_0 = N →
  has_shape2 B N (shifted_cumprod_112 sorted_usage usage_0).
Proof.
  intros Hs Hl0. destruct (has_shape2_cumprod_1 _ _ _ Hs) as [Hc Hrc].
  split; [unfold shifted_cumprod_112; by rewrite length_fmap|].
  apply Forall_fmap. eapply Forall_impl; [done|]. intros r Hr. simpl in *.
  rewrite length_zip_with. lia.
Qed.

Lemma has_shape2_shifted_cumprod_113 B N sorted_usage usage_0 usage_last :
  has_shape2 B N sorted_usage → length usage_0 = N → length usage_last = N →
  has_shape2 B N (shifted_cumprod_113 sorted_usage usage_0 usage_last).
Proof.
  intros Hs Hl0 Hll. pose proof (has_shape2_shifted_cumprod_112 _ _ _ _ Hs Hl0) as H112.
  unfold shifted_cumprod_113.
  destruct (last _) as [sl|] eqn:Hsl; simpl.
  - apply has_shape2_insert; [done|]. rewrite length_zip_with.
    rewrite last_lookup in Hsl. rewrite (has_shape2_lookup _ _ _ _ _ H112 Hsl). lia.
  - apply last_None in Hsl. rewrite Hsl in *. done.
Qed.

Lemma Forall_get2 {A} (P : A → Prop) B N (t : tensor2 A) :
  has_shape2 B N t →
  (∀ b p v, (b < B)%nat → (p < N)%nat → get2 t b p = Some v → P v) →
  Forall (Forall P) t.
Proof.
  intros Hs H. apply Forall_lookup. intros b r Hr. apply Forall_lookup. intros p v Hv.
  assert (get2 t b p = Some v) as Hg by (unfold get2; by rewrite Hr).
  destruct (get2_Some_lt _ _ _ _ _ _ Hs Hg). eauto.
Qed.

Lemma xscale_None a x : xscale a x = None ↔ x = None.
Proof. destruct x; simpl; naive_solver. Qed.
Lemma fdiv_None a b : fdiv a b = None ↔ b = 0.
Proof. unfold fdiv. case_decide; naive_solver. Qed.
Lemma xdiv_None x b : xdiv x b = None ↔ x = None ∨ b = 0.
Proof.
  destruct x as [a|]; simpl; [rewrite fdiv_None|]; split; auto.
  by intros [|].
Qed.

Lemma get2_zeros2 B N b p : (b < B)%nat → (p < N)%nat → get2 (zeros2 B N) b p = Some 0.
Proof.
  intros. unfold get2, zeros2, zeros1. rewrite lookup_replicate_2 by done. simpl.
  by rewrite lookup_replicate_2.
Qed.

(** * Outcomes *)

Lemma outcome_bind_Ok {A B} (f : A → outcome B) (m : outcome A) b :
  m ≫= f = Ok b ↔ ∃ a, m = Ok a ∧ f a = Ok b.
Proof.
  destruct m; simpl; split; try done; [by eauto| |by intros (? & ? & ?)..].
  by intros (? & [= <-] & ?).
Qed.

(** * The methods on references against the methods on values *)

Module HeapFacts.
Import Heap.

Lemma agrees_bind {A B VA VB} (lookA : heap → A → option VA) (lookB : heap → B → option VB)
    (m : run A) (f : A → run B) (oa : outcome VA) (g : VA → outcome VB) h :
  agrees lookA h (m h) oa →
  (∀ r v k, lookA (h ++ k) r = Some v → agrees lookB (h ++ k) (f r (h ++ k)) (g v)) →
  agrees lookB h ((m ≫= f) h) (oa ≫= g).
Proof.
  unfold agrees, mbind, run_bind. destruct (m h) as [res h1]. simpl.
  intros [[k ->] Hres] Hf.
  destruct oa as [v| |], res as [r| |]; simpl in *; try done; eauto.
  destruct (Hf r v k Hres) as [[k' Hk'] Hr]. split; [|done].
  exists (k ++ k'). by rewrite Hk', app_assoc.
Qed.

Lemma agrees_ret {A V} (look : heap → A → option V) h (r : A) (v : V) :
  look h r = Some v → agrees look h (mret (M:=run) r h) (Ok v).
Proof. intros H. split; [exists []; by rewrite app_nil_r|done]. Qed.

Lemma load_Some h r v : h !! r = Some v → load r h = (Ok v, h).
Proof. unfold load. by intros ->. Qed.

Lemma agrees_call1 f a h va :
  h !! a = Some va → agrees look1 h (call1 f a h) (f va).
Proof.
  intros Ha. unfold call1, mbind, run_bind. rewrite (load_Some _ _ _ Ha).
  unfold of_outcome, new, agrees, look1. destruct (f va) as [v| |]; simpl.
  - split; [by eexists|]. by rewrite list_lookup_middle.
  - split; [exists []; by rewrite app_nil_r|done].
  - split; [exists []; by rewrite app_nil_r|done].
Qed.

Lemma agrees_call2 f a b h va vb :
  h !! a = Some va → h !! b = Some vb → agrees look1 h (call2 f a b h) (f va vb).
Proof.
  intros Ha Hb. unfold call2, mbind, run_bind.
  rewrite (load_Some _ _ _ Ha), (load_Some _ _ _ Hb).
  unfold of_outcome, new, agrees, look1. destruct (f va vb) as [v| |]; simpl.
  - split; [by eexists|]. by rewrite list_lookup_middle.
  - split; [exists []; by rewrite app_nil_r|done].
  - split; [exists []; by rewrite app_nil_r|done].
Qed.

Lemma agrees_call3 f a b c h va vb vc :
  h !! a = Some va → h !! b = Some vb → h !! c = Some vc →
  agrees look1 h (call3 f a b c h) (f va vb vc).
Proof.
  intros Ha Hb Hc. unfold call3, mbind, run_bind.
  rewrite (load_Some _ _ _ Ha), (load_Some _ _ _ Hb), (load_Some _ _ _ Hc).
  unfold of_outcome, new, agrees, look1. destruct (f va vb vc) as [v| |]; simpl.
  - split; [by eexists|]. by rewrite list_lookup_middle.
  - split; [exists []; by rewrite app_nil_r|done].
  - split; [exists []; by rewrite app_nil_r|done].
Qed.

Lemma agrees_call4 f a b c d h va vb vc vd :
  h !! a = Some va → h !! b = Some vb → h !! c = Some vc → h !! d = Some vd →
  agrees look1 h (call4 f a b c d h) (f va vb vc vd).
Proof.
  intros Ha Hb Hc Hd. unfold call4, mbind, run_bind.
  rewrite (load_Some _ _ _ Ha), (load_Some _ _ _ Hb), (load_Some _ _ _ Hc),
    (load_Some _ _ _ Hd).
  unfold of_outcome, new, agrees, look1. destruct (f va vb vc vd) as [v| |]; simpl.
  - split; [by eexists|]. by rewrite list_lookup_middle.
  - split; [exists []; by rewrite app_nil_r|done].
  - split; [exists []; by rewrite app_nil_r|done].
Qed.

Lemma agrees_call2_pair f a b h va vb :
  h !! a = Some va → h !! b = Some vb →
  agrees look2 h (call2_pair f a b h) (f va vb).
Proof.
  intros Ha Hb. unfold call2_pair, mbind, run_bind.
  rewrite (load_Some _ _ _ Ha), (load_Some _ _ _ Hb).
  unfold of_outcome, new, mret, run_ret, agrees, look2.
  destruct (f va vb) as [[v1 v2]| |]; simpl.
  - split; [exists [v1; v2]; by rewrite <-app_assoc|].
    rewrite <-app_assoc. simpl.
    rewrite (list_lookup_middle h [v2] v1 (length h)) by done. simpl.
    rewrite lookup_app_r by (rewrite length_app; lia).
    rewrite length_app. simpl.
    by replace (length h + 1 - length h)%nat with 1%nat by lia.
  - split; [exists []; by rewrite app_nil_r|done].
  - split; [exists []; by rewrite app_nil_r|done].
Qed.

Lemma run_bind_eq {A B} (m : run A) (f : A → run B) h :
  (m ≫= f) h =
  match m h with
  | (Ok a, h') => f a h'
  | (Raised, h') => (Raised, h')
  | (NotFinite, h') => (NotFinite, h')
  end.
Proof. done. Qed.

Lemma new_app h k v : new v (h ++ k) = (Ok (length h + length k)%nat, h ++ (k ++ [v])).
Proof. unfold new. by rewrite length_app, app_assoc. Qed.

Lemma load_new h k i :
  load (length h + i)%nat (h ++ k) =
  match k !! i with
  | Some v => (Ok v, h ++ k)
  | None => (Raised, h ++ k)
  end.
Proof.
  unfold load. rewrite lookup_app_r by lia.
  by replace (length h + i - length h)%nat with i by lia.
Qed.

Lemma load_old h k a v : h !! a = Some v → load a (h ++ k) = (Ok v, h ++ k).
Proof. intros Ha. apply load_Some. by apply lookup_app_l_Some. Qed.

Lemma store_new h k i v :
  store (length h + i)%nat v (h ++ k) =
  if decide (i < length k)%nat then (Ok (), h ++ <[i:=v]> k) else (Raised, h ++ k).
Proof.
  unfold store. rewrite length_app. repeat case_decide; try lia; [|done].
  rewrite insert_app_r_alt by lia.
  by replace (length h + i - length h)%nat with i by lia.
Qed.

Lemma agrees_end {A V} (look : heap → A → option V) h k (res : outcome A) (o : outcome V) :
  match o, res with
  | Ok v, Ok r => look (h ++ k) r = Some v
  | Raised, Raised => True
  | NotFinite, NotFinite => True
  | _, _ => False
  end →
  agrees look h (res, h ++ k) o.
Proof. intros H. split; [by eexists|done]. Qed.

Ltac run_step :=
  rewrite run_bind_eq;
  repeat rewrite run_bind_eq;
  first [ rewrite new_app
        | rewrite load_new
        | erewrite load_old by eassumption
        | rewrite store_new
        | unfold of_outcome at 1 ];
  simpl.

Ltac run_fail vfl := by (apply agrees_end; destruct vfl; simpl).

Lemma agrees_get_allocation_weight self sorted_usage free_list h vsu vfl :
  h !! sorted_usage = Some vsu → h !! free_list = Some vfl →
  agrees look1 h (get_allocation_weight self sorted_usage free_list h)
    (T.get_allocation_weight self vsu vfl).
Proof.
  intros Hsu Hfl.
  unfold get_allocation_weight, T.get_allocation_weight.
  match goal with |- context [lift (?f self _ _)] => unfold f end.
  unfold unordered_allocation_weight.
  rewrite <-(app_nil_r h) at 2.
  run_step. destruct (as_float2 vsu) as [su| |]; simpl; [|by apply agrees_end..].
  run_step. destruct (su !! 0%nat) as [usage_0|]; simpl; [|run_fail vfl].
  run_step. destruct (pointwise2 fdiv _ _) as [quotients|]; simpl; [|run_fail vfl].
  run_step. run_step.
  run_step. destruct (last quotients) as [shifted_last|]; simpl; [|run_fail vfl].
  run_step. destruct (last su) as [usage_last|]; simpl; [|run_fail vfl].
  run_step. destruct (pointwise1 xdiv _ _) as [quotient|]; simpl; [|run_fail vfl].
  run_step. run_step.
  run_step. destruct (pointwise2 xscale _ _) as [weights|]; simpl; [|run_fail vfl].
  run_step. run_step.
  destruct (as_long2 vfl) as [fl| |]; simpl; [|by apply agrees_end..].
  run_step. by apply agrees_end.
Qed.

Ltac grow :=
  let r := fresh "r" in
  let v := fresh "v" in
  let k := fresh "k" in
  let H := fresh "H" in
  intros r v k H; unfold look1 in H;
  repeat match goal with
  | Hx : ?g !! _ = Some _ |- agrees _ (?g ++ k) _ _ => apply (lookup_app_l_Some g k) in Hx
  end.

Section pipelines.
Variable cosine_distance : tensor3 Qc → tensor3 Qc → option (tensor3 Qc).
Variable softmax : tensor3 Qc → nat → option (tensor3 Qc).
Variable self : Memory.

Lemma agrees_read h memory_matrix read_weights keys strengths link_matrix read_modes
    vm vr vk vs vl vd :
  h !! memory_matrix = Some vm → h !! read_weights = Some vr → h !! keys = Some vk →
  h !! strengths = Some vs → h !! link_matrix = Some vl → h !! read_modes = Some vd →
  agrees look2 h
    (read cosine_distance softmax memory_matrix read_weights keys strengths link_matrix
       read_modes h)
    (T.read cosine_distance softmax vm vr vk vs vl vd).
Proof.
  intros Hm Hr Hk Hs Hl Hd. unfold read, T.read.
  eapply agrees_bind; [by apply agrees_call3|grow].
  eapply agrees_bind; [by apply agrees_call2_pair|].
  intros [r1 r2] [v1 v2] k0 H0. unfold look2 in H0. simpl in H0.
  apply bind_Some in H0 as (x1 & Hx1 & H0). apply bind_Some in H0 as (x2 & Hx2 & H0).
  simplify_eq. simpl.
  repeat match goal with
  | Hx : ?g !! _ = Some _ |- agrees _ (?g ++ k0) _ _ => apply (lookup_app_l_Some g k0) in Hx
  end.
  eapply agrees_bind; [by apply agrees_call4|grow].
  eapply agrees_bind; [by apply agrees_call2|grow].
  apply agrees_ret. unfold look2. simpl.
  repeat match goal with Hx : _ !! _ = Some _ |- _ => rewrite Hx; clear Hx end. done.
Qed.

Lemma agrees_write h memory_matrix usage_vector read_weights write_weight
    precedence_vector link_matrix key strength free_gates allocation_gate write_gate
    write_vector erase_vector vm vu vr vw vp vl vk vs vf va vg vv ve :
  h !! memory_matrix = Some vm → h !! usage_vector = Some vu →
  h !! read_weights = Some vr → h !! write_weight = Some vw →
  h !! precedence_vector = Some vp → h !! link_matrix = Some vl →
  h !! key = Some vk → h !! strength = Some vs → h !! free_gates = Some vf →
  h !! allocation_gate = Some va → h !! write_gate = Some vg →
  h !! write_vector = Some vv → h !! erase_vector = Some ve →
  agrees look5 h
    (write cosine_distance softmax self memory_matrix usage_vector
       read_weights write_weight precedence_vector link_matrix key strength free_gates
       allocation_gate write_gate write_vector erase_vector h)
    (T.write cosine_distance softmax self vm vu vr vw vp vl vk vs vf va vg vv ve).
Proof.
  intros. unfold write, T.write.
  eapply agrees_bind; [by apply agrees_call3|grow].
  eapply agrees_bind; [by apply agrees_call4|grow].
  eapply agrees_bind; [by apply agrees_call1|grow].
  eapply agrees_bind; [by apply agrees_call1|grow].
  eapply agrees_bind; [by apply agrees_call2|grow].
  eapply agrees_bind; [by apply agrees_call2|grow].
  eapply agrees_bind; [by apply agrees_get_allocation_weight|grow].
  eapply agrees_bind; [by apply agrees_call4|grow].
  eapply agrees_bind; [by apply agrees_call4|grow].
  eapply agrees_bind; [by apply agrees_call3|grow].
  eapply agrees_bind; [by apply agrees_call2|grow].
  apply agrees_ret. unfold look5. simpl.
  repeat match goal with Hx : _ !! _ = Some _ |- _ => rewrite Hx; clear Hx end. done.
Qed.
End pipelines.

End HeapFacts.

(** * Calls on references *)

Section call_facts.
Import Heap.

Lemma agrees_unchanged {A V} (look : heap → A → option V) h p o :
  agrees look h p o → ∀ r v, h !! r = Some v → p.2 !! r = Some v.
Proof. intros [[k ->] _] r v Hr. by apply lookup_app_l_Some. Qed.

Lemma agrees_deref2 h p o :
  agrees look2 h p o → deref2 p = (λ v, (Some v.1, Some v.2)) <$> o.
Proof.
  intros [_ H]. unfold deref2. destruct p as [res h']. simpl in *.
  destruct o as [[v1 v2]| |], res as [[r1 r2]| |]; simpl in *; try done.
  unfold look2 in H. simpl in H.
  destruct (h' !! r1); simpl in H; [|done]. destruct (h' !! r2); simpl in H; [|done].
  by simplify_eq.
Qed.

Lemma agrees_deref5 h p o :
  agrees look5 h p o →
  deref5 p = (λ v, (Some v.1.1.1.1, Some v.1.1.1.2, Some v.1.1.2, Some v.1.2, Some v.2)) <$> o.
Proof.
  intros [_ H]. unfold deref5. destruct p as [res h']. simpl in *.
  destruct o as [[[[[v1 v2] v3] v4] v5]| |], res as [[[[[r1 r2] r3] r4] r5]| |];
    simpl in *; try done.
  unfold look5 in H. simpl in H.
  destruct (h' !! r1); simpl in H; [|done]. destruct (h' !! r2); simpl in H; [|done].
  destruct (h' !! r3); simpl in H; [|done]. destruct (h' !! r4); simpl in H; [|done].
  destruct (h' !! r5); simpl in H; [|done].
  by simplify_eq.
Qed.

Section T_write.
Variable cosine_distance : tensor3 Qc → tensor3 Qc → option (tensor3 Qc).
Variable softmax : tensor3 Qc → nat → option (tensor3 Qc).
Variable self : Memory.

Lemma T_write_Ok_inv vm vu vr vw vp vl vk vs vf va vg vv ve u w m l p :
  T.write cosine_distance softmax self vm vu vr vw vp vl vk vs vf va vg vv ve
    = Ok (u, w, m, l, p) →
  T.update_memory vm w vv ve = Ok m.
Proof.
  unfold T.write. intros H.
  repeat (apply outcome_bind_Ok in H as (? & ? & H)).
  by simplify_eq.
Qed.

Lemma T_write_raises vm vu vr vw vp vl vk vs vf va vg vv ve x :
  T.write cosine_distance softmax self vm vu vr vw vp vl vk vs vf va vg vv ve ≠ Ok x.
Proof.
  unfold T.write. intros H.
  apply outcome_bind_Ok in H as (lw & _ & H).
  apply outcome_bind_Ok in H as (nu & _ & H).
  apply outcome_bind_Ok in H as (sl & _ & H).
  apply outcome_bind_Ok in H as (fl & Hfl & _).
  unfold T.LongStorage in Hfl. by destruct (as_long2 sl).
Qed.

Lemma T_read_raises vm vr vk vs vl vd x :
  T.read cosine_distance softmax vm vr vk vs vl vd ≠ Ok x.
Proof.
  unfold T.read. intros H.
  apply outcome_bind_Ok in H as (lw & _ & H).
  apply outcome_bind_Ok in H as (ws & Hws & _).
  unfold T.get_directional_weights in Hws.
  destruct (as_float3 vr); [|done..]. by destruct (as_float3 vl).
Qed.

Lemma agrees_not_Ok {A V} (look : heap → A → option V) h p o :
  agrees look h p o → (∀ v, o ≠ Ok v) → ∀ r, p.1 ≠ Ok r.
Proof.
  intros [_ H] Ho r Hr. rewrite Hr in H. destruct o as [v| |]; [|done..].
  by apply (Ho v).
Qed.
End T_write.

End call_facts.

(** * Tensor values against finite tensors *)

Section float_facts.

Lemma mapM_id_Some {A} (l : list A) :
  mapM (M:=option) (λ x : option A, x) (Some <$> l) = Some l.
Proof. by apply mapM_fmap_Some. Qed.

Lemma finite2_Some (t : tensor2 Qc) : finite2 ((λ r : list Qc, Some <$> r) <$> t) = Ok t.
Proof.
  unfold finite2. rewrite (mapM_fmap_Some _ (λ r : list Qc, Some <$> r)); [done|].
  intros r. apply mapM_id_Some.
Qed.

Lemma finite3_Some (t : tensor3 Qc) :
  Heap.finite3 ((λ m : tensor2 Qc, (λ r : list Qc, Some <$> r) <$> m) <$> t) = Ok t.
Proof.
  unfold Heap.finite3.
  rewrite (mapM_fmap_Some _ (λ m : list (list Qc), (λ r : list Qc, Some <$> r) <$> m));
    [done|].
  intros m. apply mapM_fmap_Some. intros r. apply mapM_id_Some.
Qed.

Lemma as_float2_float2 t : Heap.as_float2 (Heap.float2 t) = Ok t.
Proof. apply finite2_Some. Qed.

Lemma as_float3_float3 t : Heap.as_float3 (Heap.float3 t) = Ok t.
Proof. apply finite3_Some. Qed.

Ltac finite_operands :=
  rewrite ?as_float3_float3, ?as_float2_float2, ?finite3_Some, ?finite2_Some; simpl.

Variable cosine_distance : tensor3 Qc → tensor3 Qc → option (tensor3 Qc).
Variable softmax : tensor3 Qc → nat → option (tensor3 Qc).
Variable self : Memory.

Lemma T_read_float m r k s l d :
  Heap.T.read cosine_distance softmax (Heap.float3 m) (Heap.float3 r) (Heap.float3 k)
    (Heap.float2 s) (Heap.float3 l) (Heap.float3 d)
  = (λ p, (Heap.float3 p.1, Heap.float3 p.2))
      <$> lift (read cosine_distance softmax m r k s l d).
Proof.
  unfold Heap.T.read, read, Heap.T.get_content_address, Heap.T.get_directional_weights,
    Heap.T.update_read_weights, Heap.T.update_read_vectors.
  finite_operands.
  by destruct (get_content_address _ _ _ _ _) as [lw|].
Qed.

End float_facts.

(** * The initial state on the heap *)

Section init_facts.
Import HeapFacts.

Lemma fill_float2 c t :
  (λ row : list xnum, (λ _, Some c) <$> row) <$> ((λ r : list Qc, Some <$> r) <$> t)
  = (λ r : list Qc, Some <$> r) <$> fill_2 c t.
Proof.
  unfold fill_2, fill_1. rewrite <-!list_fmap_compose. apply list_fmap_ext.
  intros _ r _. simpl. by rewrite <-!list_fmap_compose.
Qed.

Lemma fill_float3 c t :
  (λ m : tensor2 xnum, (λ row : list xnum, (λ _, Some c) <$> row) <$> m)
    <$> ((λ m : tensor2 Qc, (λ r : list Qc, Some <$> r) <$> m) <$> t)
  = (λ m : tensor2 Qc, (λ r : list Qc, Some <$> r) <$> m) <$> fill_3 c t.
Proof.
  unfold fill_3. rewrite <-!list_fmap_compose. apply list_fmap_ext.
  intros _ m _. simpl. apply fill_float2.
Qed.

End init_facts.

(** * Content addressing over the real numbers *)

Section real_facts.
Import Real.
Local Open Scope R_scope.

Lemma sum_list_cons x l : sum_list (x :: l) = x + sum_list l.
Proof. done. Qed.

Lemma sum_list_exp_pos (c : list R) : c ≠ [] → 0 < sum_list (exp <$> c).
Proof.
  destruct c as [|x c]; [done|]. intros _. revert x.
  induction c as [|y c IH]; intros x; rewrite fmap_cons, sum_list_cons.
  - pose proof (exp_pos x). change (sum_list (exp <$> [])) with 0. lra.
  - pose proof (exp_pos x). specialize (IH y). lra.
Qed.

Lemma sum_list_scale (c : list R) z :
  z ≠ 0 → sum_list ((λ x, exp x / z) <$> c) = sum_list (exp <$> c) / z.
Proof.
  intros Hz. induction c as [|x c IH].
  - change (0 = 0 / z). field. done.
  - rewrite !fmap_cons, !sum_list_cons, IH. field. done.
Qed.

Lemma length_transpose_0_1 {A} (m : tensor2 A) n k :
  has_shape2 n k m → (0 < n)%nat → length (transpose_0_1 m) = k.
Proof.
  intros [Hn Hr] Hpos. unfold transpose_0_1. rewrite length_fmap, length_seq.
  destruct m as [|r m]; [simpl in Hn; lia|]. simpl. by apply Forall_cons in Hr as [? _].
Qed.

Lemma lookup_transpose_0_1 {A} (m : tensor2 A) n k j :
  has_shape2 n k m → (0 < n)%nat → (j < k)%nat →
  transpose_0_1 m !! j = Some (column j m).
Proof.
  intros [Hn Hr] Hpos Hj. unfold transpose_0_1. rewrite list_lookup_fmap.
  rewrite lookup_seq_lt; [done|].
  destruct m as [|r m]; [simpl in Hn; lia|]. simpl. apply Forall_cons in Hr as [? _]. lia.
Qed.

Lemma length_column {A} (m : tensor2 A) n k j :
  has_shape2 n k m → (j < k)%nat → length (column j m) = n.
Proof.
  intros [<- Hr] Hj. unfold column. induction Hr as [|r m Hlen Hr IH]; [done|].
  simpl. destruct (lookup_lt_is_Some_2 r j) as [x Hx]; [lia|]. rewrite Hx. simpl.
  f_equal. apply IH.
Qed.

Lemma column_normalised (m : tensor2 R) (z : list R) k j s :
  Forall (λ r, length r = k) m → (j < k)%nat → z !! j = Some s →
  column j ((λ row : list R, zip_with (λ x zk, exp x / zk) row z) <$> m)
  = (λ x, exp x / s) <$> column j m.
Proof.
  intros Hr Hj Hz. unfold column. induction Hr as [|r m' Hlen Hr IH]; [done|].
  rewrite fmap_cons. simpl. destruct (lookup_lt_is_Some_2 r j) as [x Hx]; [lia|].
  rewrite lookup_zip_with, Hx, Hz. simpl. f_equal. apply IH.
Qed.

Lemma column_softmax_slots (m : tensor2 R) n k j :
  has_shape2 n k m → (0 < n)%nat → (j < k)%nat →
  column j (softmax_slots m)
  = (λ x, exp x / sum_list (exp <$> column j m)) <$> column j m.
Proof.
  intros Hs Hpos Hj. unfold softmax_slots.
  apply (column_normalised _ _ k); [by destruct Hs|done|].
  by rewrite list_lookup_fmap, (lookup_transpose_0_1 m n k j).
Qed.

Lemma column_softmax_sum (m : tensor2 R) n k j :
  has_shape2 n k m → (0 < n)%nat → (j < k)%nat →
  sum_list (column j (softmax_slots m)) = 1
  ∧ Forall (λ x, 0 < x) (column j (softmax_slots m)).
Proof.
  intros Hs Hpos Hj. rewrite (column_softmax_slots m n k j) by done.
  assert (0 < sum_list (exp <$> column j m)) as Hz.
  { apply sum_list_exp_pos. intros Hnil.
    pose proof (length_column m n k j Hs Hj) as Hl. rewrite Hnil in Hl. simpl in Hl. lia. }
  split.
  - rewrite sum_list_scale by lra. field. lra.
  - apply Forall_fmap, Forall_true. intros x. simpl.
    apply Rdiv_lt_0_compat; [apply exp_pos|done].
Qed.
End real_facts.

Section real_shapes.
Import Real.
Local Open Scope R_scope.

Lemma has_shape2_softmax_slots n k (m : tensor2 R) :
  has_shape2 n k m → (0 < n)%nat → has_shape2 n k (softmax_slots m).
Proof.
  intros Hs Hpos. pose proof (length_transpose_0_1 m n k Hs Hpos) as Hl.
  destruct Hs as [Hn Hr]. unfold softmax_slots. split; [by rewrite length_fmap|].
  apply Forall_fmap. eapply Forall_impl; [done|]. intros r Hlen. simpl in *.
  rewrite length_zip_with, length_fmap, Hl. lia.
Qed.

End real_shapes.

(** * Entries, closed forms and inversions of the sub-operations *)

Lemma pointwise1_singleton_l {A B C} (f : A → B → C) x ys :
  pointwise1 f [x] ys = Some (f x <$> ys).
Proof.
  unfold pointwise1, broadcast. case_decide as Hlen.
  - destruct ys as [|y [|??]]; simplify_eq/=. done.
  - induction ys as [|y ys IH]; [done|]. clear. 
    induction (y :: ys) as [|z zs IH]; [done|]. simpl. simpl in IH. by rewrite IH.
Qed.

Lemma pointwise2_col_l {A B C} (f : A → B → C) (l : list A) (b : tensor2 B) :
  length l = length b →
  pointwise2 f ((λ x, [x]) <$> l) b = Some (zip_with (λ x r, f x <$> r) l b).
Proof.
  intros Hlen. unfold pointwise2.
  rewrite (broadcast_zip _ (λ (r : list A) s, match r with [x] => f x <$> s | _ => [] end)).
  - f_equal. revert b Hlen. induction l as [|x l IH]; intros [|r b] ?; simplify_eq/=; [done|].
    f_equal. by apply IH.
  - revert b Hlen. induction l as [|x l IH]; intros [|r b] ?; simplify_eq/=; constructor.
    + apply pointwise1_singleton_l.
    + by apply IH.
Qed.

Lemma sum_list_zip_plus (u v : list Qc) :
  length u = length v → sum_list (zip_with Qcplus u v) = sum_list u + sum_list v.
Proof.
  unfold sum_list. revert v.
  induction u as [|x u IH]; intros [|y v] ?; simplify_eq/=; [ring|].
  rewrite IH by done. ring.
Qed.

Lemma sum_list_scale_l (c : Qc) (u : list Qc) :
  sum_list (Qcmult c <$> u) = c * sum_list u.
Proof.
  unfold sum_list. induction u as [|x u IH]; [simpl; ring|].
  rewrite fmap_cons. cbn [foldr]. rewrite IH. ring.
Qed.

Lemma Qcmult_nonneg (a b : Qc) : 0 ≤ a → 0 ≤ b → 0 ≤ a * b.
Proof.
  intros Ha Hb. replace 0 with (0 * b) by ring. by apply Qcmult_le_compat_r.
Qed.

Lemma Qcplus_nonneg (a b : Qc) : 0 ≤ a → 0 ≤ b → 0 ≤ a + b.
Proof.
  intros Ha Hb. replace 0 with (0 + 0) by ring. by apply Qcplus_le_compat.
Qed.

Lemma Qcle_0_minus (a b : Qc) : a ≤ b ↔ 0 ≤ b - a.
Proof. unfold Qcminus. apply Qcle_minus_iff. Qed.

Lemma update_precedence_vector_rows B N precedence_vector write_weight :
  has_shape2 B N precedence_vector → has_shape2 B N write_weight →
  update_precedence_vector precedence_vector write_weight
  = Some (zip_with (λ (wr pr : list Qc),
                      zip_with Qcplus (Qcmult (1 - sum_list wr) <$> pr) wr)
            write_weight precedence_vector).
Proof.
  intros Hp Hw. unfold update_precedence_vector, reduce_sum_1_keep, rsub2.
  rewrite <-list_fmap_compose.
  change ((λ r : list Qc, Qcminus 1 <$> r) ∘ (λ r : list Qc, [sum_list r]))
    with ((λ x : Qc, [x]) ∘ (λ r : list Qc, 1 - sum_list r)).
  rewrite list_fmap_compose.
  rewrite pointwise2_col_l by (rewrite length_fmap; destruct Hp, Hw; congruence).
  simpl. rewrite pointwise2_zip.
  - f_equal. destruct Hp as [Hp _], Hw as [Hw _]. rewrite <-Hw in Hp. clear Hw.
    revert precedence_vector Hp.
    induction write_weight as [|wr w IH]; intros [|pr p] ?; simplify_eq/=; [done|].
    f_equal. by apply IH.
  - destruct Hp as [Hp Hpr], Hw as [Hw Hwr]. rewrite <-Hw in Hp. clear Hw.
    revert precedence_vector Hp Hpr.
    induction write_weight as [|wr w IH]; intros [|pr p] ? Hpr; simplify_eq/=; constructor.
    + rewrite length_fmap. inversion Hpr; inversion Hwr; congruence.
    + inversion Hpr; inversion Hwr; subst. by apply IH.
Qed.

Lemma get2_eye n i j :
  (i < n)%nat → (j < n)%nat → get2 (eye n) i j = Some (if decide (i = j) then 1 else 0).
Proof.
  intros Hi Hj. unfold get2, eye.
  rewrite list_lookup_fmap, lookup_seq_lt by done. simpl.
  by rewrite list_lookup_fmap, lookup_seq_lt by done.
Qed.

Lemma get2_rsub2 c a i j : get2 (rsub2 c a) i j = Qcminus c <$> get2 a i j.
Proof. unfold rsub2. apply get2_fmap. Qed.

Lemma in_unit_mult a b : in_unit a → in_unit b → in_unit (a * b).
Proof.
  intros [Ha0 Ha1] [Hb0 Hb1]. split; [by apply Qcmult_nonneg|].
  apply Qcle_trans with (1 * b); [by apply Qcmult_le_compat_r|].
  by replace (1 * b) with b by ring.
Qed.

Lemma in_unit_rsub a : in_unit a → in_unit (1 - a).
Proof.
  intros [Ha0 Ha1]. split; [by apply (proj1 (Qcle_0_minus _ _))|].
  apply (proj2 (Qcle_0_minus _ _)). by replace (1 - (1 - a)) with a by ring.
Qed.

Lemma singletons_concat {A} n (g : tensor2 A) :
  has_shape2 n 1 g → g = (λ x, [x]) <$> concat g.
Proof.
  intros [_ Hr]. induction Hr as [|r g Hlen _ IH]; [done|].
  destruct r as [|x [|??]]; simplify_eq/=. by f_equal.
Qed.

Lemma lookup_concat_singletons {A} n (g : tensor2 A) b :
  has_shape2 n 1 g → concat g !! b = get2 g b 0.
Proof.
  intros Hg. rewrite (singletons_concat n g Hg) at 2. unfold get2.
  rewrite list_lookup_fmap. by destruct (concat g !! b).
Qed.

Lemma view_first_2_singletons B N (t : tensor3 Qc) :
  has_shape3 B N 1 t →
  view_first_2 t = Some ((λ m : tensor2 Qc, concat m) <$> t).
Proof.
  intros [_ Ht]. unfold view_first_2.
  rewrite (proj1 (Is_true_true _)); [done|]. apply forallb_True.
  eapply Forall_impl; [done|]. intros m [_ Hm]. apply forallb_True.
  eapply Forall_impl; [done|]. intros r Hr. simpl in *. rewrite Hr. done.
Qed.

Lemma has_shape2_view_first_2 B N (t : tensor3 Qc) :
  has_shape3 B N 1 t → has_shape2 B N ((λ m : tensor2 Qc, concat m) <$> t).
Proof.
  intros [Hl Ht]. split; [by rewrite length_fmap|].
  apply Forall_fmap. eapply Forall_impl; [done|]. intros m Hm. simpl.
  by apply length_concat_singletons.
Qed.

Lemma has_shape2_scale_rows {A B C} (f : A → B → C) n m (l : list A) (t : tensor2 B) :
  length l = n → has_shape2 n m t → has_shape2 n m (zip_with (λ x r, f x <$> r) l t).
Proof.
  intros Hl [Ht Hr]. split; [rewrite length_zip_with; lia|].
  apply Forall_lookup. intros b r Hb.
  apply lookup_zip_with_Some in Hb as (x & s & -> & _ & Hs).
  rewrite length_fmap. rewrite Forall_lookup in Hr. by apply (Hr b).
Qed.

Lemma pointwise2_gate {A B C} (f : A → B → C) n m (g : tensor2 A) (t : tensor2 B) :
  has_shape2 n 1 g → has_shape2 n m t →
  pointwise2 f g t = Some (zip_with (λ x r, f x <$> r) (concat g) t).
Proof.
  intros Hg Ht. rewrite (singletons_concat n g Hg) at 1.
  apply pointwise2_col_l. rewrite (length_concat_singletons g n) by done. by destruct Ht.
Qed.

Lemma lookup_column {A} (m : tensor2 A) n k i j :
  has_shape2 n k m → (j < k)%nat → column j m !! i = get2 m i j.
Proof.
  intros [_ Hr] Hj. unfold column, get2. revert i.
  induction Hr as [|r m Hlen Hr IH]; intros i; [done|].
  simpl. destruct (lookup_lt_is_Some_2 r j) as [x Hx]; [lia|]. rewrite Hx. simpl.
  destruct i as [|i]; simpl; [done|]. apply IH.
Qed.

Lemma pointwise2_row_l {A B C} (f : A → B → C) (r : list A) (m : tensor2 B) :
  Forall (λ s, length s = length r) m →
  pointwise2 f [r] m = Some (zip_with f r <$> m).
Proof.
  intros Hm. unfold pointwise2, broadcast.
  assert (mapM (pointwise1 f r) m = Some (zip_with f r <$> m)) as Hmap.
  { induction Hm as [|s m Hs Hm IH]; [done|]. simpl.
    rewrite pointwise1_zip by done. simpl. by rewrite IH. }
  case_decide as Hlen; [|done].
  destruct m as [|s [|??]]; simplify_eq/=.
  inversion Hm; subst. by rewrite pointwise1_zip.
Qed.

Lemma pointwise3_rows_l {A B C} (f : A → B → C) n k j (rs : tensor2 A) (t : tensor3 B) :
  has_shape2 n j rs → has_shape3 n k j t →
  pointwise3 f (expand_dims_1 rs) t
  = Some (zip_with (λ r (m : tensor2 B), zip_with f r <$> m) rs t).
Proof.
  intros [Hn Hr] [Hn' Ht]. unfold pointwise3, expand_dims_1.
  rewrite (broadcast_zip _ (λ (x : tensor2 A) (m : tensor2 B),
             match x with [r] => zip_with f r <$> m | _ => [] end)).
  - f_equal. clear. revert t. induction rs as [|r rs IH]; intros [|m t]; [done..|].
    rewrite fmap_cons. cbn [zip_with]. f_equal. apply IH.
  - subst n. revert t Hn' Ht. induction Hr as [|r rs Hlen Hr IH]; intros [|m t] ? Ht;
      simplify_eq/=; constructor.
    + apply pointwise2_row_l. inversion Ht as [|?? [_ Hm]]; subst.
      eapply Forall_impl; [done|]. intros s Hs. simpl in *. congruence.
    + apply IH; [done|]. by inversion Ht.
Qed.

Lemma get3_rows_l {A B C} (f : A → B → C) (rs : tensor2 A) (t : tensor3 B) b i j :
  get3 (zip_with (λ r (m : tensor2 B), zip_with f r <$> m) rs t) b i j
  = x ← get2 rs b j; y ← get3 t b i j; Some (f x y).
Proof.
  unfold get3, get2. rewrite lookup_zip_with.
  destruct (rs !! b) as [r|]; simpl; [|done].
  destruct (t !! b) as [m|]; simpl; [|by destruct (r !! j)].
  rewrite list_lookup_fmap. destruct (m !! i) as [s|]; simpl; [|by destruct (r !! j)].
  rewrite lookup_zip_with. by destruct (r !! j).
Qed.

Lemma has_shape3_rows_l {A B C} (f : A → B → C) n k j (rs : tensor2 A) (t : tensor3 B) :
  has_shape2 n j rs → has_shape3 n k j t →
  has_shape3 n k j (zip_with (λ r (m : tensor2 B), zip_with f r <$> m) rs t).
Proof.
  intros [Hn Hr] [Hn' Ht]. split; [rewrite length_zip_with; lia|].
  apply Forall_lookup. intros b x Hx.
  apply lookup_zip_with_Some in Hx as (r & m & -> & Hrb & Hmb).
  rewrite Forall_lookup in Hr. rewrite Forall_lookup in Ht.
  specialize (Hr _ _ Hrb). destruct (Ht _ _ Hmb) as [Hk Hm].
  split; [by rewrite length_fmap|]. apply Forall_fmap.
  eapply Forall_impl; [done|]. intros s Hs. simpl in *. rewrite length_zip_with. lia.
Qed.

Lemma select_1_shape n k j (t : tensor3 Qc) c :
  has_shape3 n k j t → (c < k)%nat →
  ∃ sel, select_1 c t = Some sel ∧ has_shape2 n j sel
         ∧ ∀ b h, get2 sel b h = get3 t b c h.
Proof.
  intros [Hn Ht] Hc. exists ((λ m : tensor2 Qc, default [] (m !! c)) <$> t).
  split_and!.
  - unfold select_1. clear Hn. induction Ht as [|m t [Hm _] Ht IH]; [done|]. simpl.
    destruct (lookup_lt_is_Some_2 m c) as [r Hr]; [lia|]. rewrite Hr. simpl.
    by rewrite IH.
  - split; [by rewrite length_fmap|]. apply Forall_fmap.
    eapply Forall_impl; [done|]. intros m [Hm Hrows]. simpl.
    destruct (lookup_lt_is_Some_2 m c) as [r Hr]; [lia|]. rewrite Hr. simpl.
    rewrite Forall_lookup in Hrows. by apply (Hrows c).
  - intros b h. unfold get2, get3. rewrite list_lookup_fmap.
    destruct (t !! b) as [m|] eqn:Hm; simpl; [|done].
    rewrite Forall_lookup in Ht. destruct (Ht _ _ Hm) as [Hlen _].
    destruct (lookup_lt_is_Some_2 m c) as [r Hr]; [lia|]. unfold get2. by rewrite Hr.
Qed.

Lemma Qcmult_le_mono_l (x y z : Qc) : 0 ≤ z → x ≤ y → z * x ≤ z * y.
Proof. intros Hz Hxy. rewrite !(Qcmult_comm z). by apply Qcmult_le_compat_r. Qed.

Lemma sum_list_mix (m0 m1 m2 : Qc) (a b c d : list Qc) :
  length a = length d → length b = length d → length c = length d →
  (∀ i x y z, a !! i = Some x → b !! i = Some y → c !! i = Some z →
     d !! i = Some (m0 * x + m1 * y + m2 * z)) →
  sum_list d = m0 * sum_list a + m1 * sum_list b + m2 * sum_list c.
Proof.
  unfold sum_list. revert a b c.
  induction d as [|v d IH]; intros [|x a] [|y b] [|z c] ??? Hd; simplify_eq/=; [ring|].
  specialize (Hd 0%nat _ _ _ eq_refl eq_refl eq_refl) as Hv. simplify_eq/=.
  rewrite (IH a b c); [ring|done..|]. intros i. apply (Hd (S i)).
Qed.

Lemma select_1_take c n (t : tensor3 Qc) :
  (c < n)%nat → select_1 c ((λ m : tensor2 Qc, take n m) <$> t) = select_1 c t.
Proof.
  intros Hc. unfold select_1. induction t as [|m t IH]; [done|].
  rewrite fmap_cons. cbn [mapM]. rewrite lookup_take_lt by done. by rewrite IH.
Qed.

Lemma select_1_short n k j (t : tensor3 Qc) c :
  has_shape3 n k j t → (0 < n)%nat → (k ≤ c)%nat → select_1 c t = None.
Proof.
  intros [Hn Ht] Hpos Hc. destruct t as [|m t]; [simpl in Hn; lia|].
  apply Forall_cons in Ht as [[Hm _] _]. unfold select_1. simpl.
  by rewrite lookup_ge_None_2 by lia.
Qed.


Lemma pointwise3_rows_r {A B C} (f : A → B → C) n k j (t : tensor3 A) (rs : tensor2 B) :
  has_shape3 n k j t → has_shape2 n j rs →
  pointwise3 f t (expand_dims_1 rs)
  = Some (zip_with (λ (m : tensor2 A) r, (λ row, zip_with f row r) <$> m) t rs).
Proof.
  intros [Hn Ht] [Hn' Hr]. unfold pointwise3, expand_dims_1.
  rewrite (broadcast_zip _ (λ (m : tensor2 A) (x : tensor2 B),
             match x with [r] => (λ row, zip_with f row r) <$> m | _ => [] end)).
  - f_equal. clear. revert rs. induction t as [|m t IH]; intros [|r rs]; [done..|].
    rewrite fmap_cons. cbn [zip_with]. f_equal. apply IH.
  - subst n. revert rs Hn' Hr. induction Ht as [|m t Hm Ht IH]; intros [|r rs] ? Hr;
      simplify_eq/=; constructor.
    + apply (pointwise2_row _ k j); [done|]. by inversion Hr.
    + apply IH; [done|]. by inversion Hr.
Qed.

Lemma prod_list_ge_1 (l : list Qc) : Forall (λ x, 1 ≤ x) l → 1 ≤ prod_list l.
Proof.
  unfold prod_list. induction 1 as [|x l Hx _ IH]; simpl; [apply Qcle_refl|].
  apply Qcle_trans with (1 * foldr Qcmult 1 l).
  - by replace (1 * foldr Qcmult 1 l) with (foldr Qcmult 1 l) by ring.
  - apply Qcmult_le_compat_r; [done|]. apply Qcle_trans with 1; [|done].
    by apply (bool_decide_eq_true_1 _).
Qed.

Lemma update_usage_vector_entries B N R
    (usage_vector : tensor2 Qc) (read_weights : tensor3 Qc)
    (write_weight free_gates : tensor2 Qc) :
  has_shape2 B N usage_vector →
  has_shape3 B N R read_weights →
  has_shape2 B N write_weight →
  has_shape2 B R free_gates →
  ∃ new_usage_vector,
    update_usage_vector usage_vector read_weights write_weight free_gates
      = Some new_usage_vector
    ∧ has_shape2 B N new_usage_vector
    ∧ (∀ b i u w r f,
         get2 usage_vector b i = Some u → get2 write_weight b i = Some w →
         get2 read_weights b i = Some r → free_gates !! b = Some f →
         get2 new_usage_vector b i
         = Some ((u + w - u * w) * prod_list (zip_with (λ x g, 2 - x * g) r f))).
Proof.
  intros Hu Hr Hw Hf. unfold update_usage_vector.
  rewrite (pointwise3_rows_r _ B N R) by done. simpl.
  set (gated := zip_with _ read_weights free_gates).
  assert (has_shape2 B N (prod_2 (rsub3 2 gated))) as Hret.
  { destruct Hr as [HB Hr], Hf as [HB' Hf]. split.
    - unfold prod_2, rsub3, gated. rewrite !length_fmap, length_zip_with. lia.
    - unfold prod_2, rsub3. rewrite <-list_fmap_compose. apply Forall_fmap.
      apply Forall_lookup. intros b x Hx.
      apply lookup_zip_with_Some in Hx as (m & g & -> & Hm & Hg). simpl.
      unfold rsub2. rewrite !length_fmap. rewrite Forall_lookup in Hr.
      by destruct (Hr _ _ Hm). }
  assert (∀ b i r f, get2 read_weights b i = Some r → free_gates !! b = Some f →
            get2 (prod_2 (rsub3 2 gated)) b i
            = Some (prod_list (zip_with (λ x g, 2 - x * g) r f))) as Hretx.
  { intros b i r f Hrx Hfx. unfold get2 in *. unfold prod_2, rsub3, gated.
    rewrite !list_lookup_fmap, lookup_zip_with, Hfx.
    destruct (read_weights !! b) as [m|]; simplify_eq/=.
    unfold rsub2. rewrite !list_lookup_fmap, Hrx. simpl. f_equal. f_equal.
    clear. revert f. induction r as [|x r IH]; intros [|g f]; simpl; [done..|].
    f_equal. apply IH. }
  rewrite !pointwise2_zip by eauto using has_shape2_Forall2. simpl.
  rewrite pointwise2_zip
    by (eapply has_shape2_Forall2; by apply has_shape2_zip_with). simpl.
  rewrite pointwise2_zip
    by (eapply has_shape2_Forall2; [repeat apply has_shape2_zip_with|]; done).
  set (new := zip_with _ _ (prod_2 _)).
  assert (∀ b i u w r f,
         get2 usage_vector b i = Some u → get2 write_weight b i = Some w →
         get2 read_weights b i = Some r → free_gates !! b = Some f →
         get2 new b i
         = Some ((u + w - u * w) * prod_list (zip_with (λ x g, 2 - x * g) r f))) as Hentry.
  { intros b i u w r f Hux Hwx Hrx Hfx. unfold new.
    rewrite !get2_zip_with, Hux, Hwx, (Hretx _ _ _ _ Hrx Hfx). done. }
  assert (has_shape2 B N new) as Hnew by (repeat apply has_shape2_zip_with; done).
  by exists new.
Qed.

Lemma update_write_weight_closed_form B N
    (lookup_weight : tensor3 Qc) (allocation_weight write_gate allocation_gate : tensor2 Qc) :
  has_shape3 B N 1 lookup_weight →
  has_shape2 B N allocation_weight →
  has_shape2 B 1 write_gate →
  has_shape2 B 1 allocation_gate →
  ∃ new_write_weight,
    update_write_weight lookup_weight allocation_weight write_gate allocation_gate
      = Some new_write_weight
    ∧ has_shape2 B N new_write_weight
    ∧ ∀ b row, new_write_weight !! b = Some row →
        ∃ g k a m, get2 write_gate b 0 = Some g ∧ get2 allocation_gate b 0 = Some k
          ∧ allocation_weight !! b = Some a ∧ lookup_weight !! b = Some m
          ∧ row = Qcmult g <$> zip_with Qcplus (Qcmult k <$> a) (Qcmult (1 - k) <$> concat m).
Proof.
  intros Hl Ha Hg Hk. unfold update_write_weight.
  rewrite (view_first_2_singletons B N) by done. simpl.
  pose proof (has_shape2_view_first_2 B N _ Hl) as Hl2.
  assert (has_shape2 B 1 (rsub2 1 allocation_gate)) as Hk' by by apply has_shape2_rsub2.
  assert (length (concat allocation_gate) = B) as Hlk by by apply length_concat_singletons.
  assert (length (concat (rsub2 1 allocation_gate)) = B) as Hlk'
    by by apply length_concat_singletons.
  assert (length (concat write_gate) = B) as Hlg by by apply length_concat_singletons.
  rewrite (pointwise2_gate _ B N) by done. simpl.
  rewrite (pointwise2_gate _ B N) by done. simpl.
  rewrite pointwise2_zip
    by (eapply has_shape2_Forall2; by apply has_shape2_scale_rows). simpl.
  rewrite (pointwise2_gate _ B N)
    by (try apply has_shape2_zip_with; try apply has_shape2_scale_rows; done).
  eexists. split_and!; [done| |].
  - apply has_shape2_scale_rows; [done|].
    apply has_shape2_zip_with; by apply has_shape2_scale_rows.
  - intros b row Hrow.
    apply lookup_zip_with_Some in Hrow as (g & s & -> & Hgb & Hs).
    apply lookup_zip_with_Some in Hs as (x & y & -> & Hx & Hy).
    apply lookup_zip_with_Some in Hx as (k & a & -> & Hkb & Hab).
    apply lookup_zip_with_Some in Hy as (k' & c & -> & Hkb' & Hcb).
    rewrite list_lookup_fmap in Hcb.
    destruct (lookup_weight !! b) as [m|] eqn:Hm; [|done]. injection Hcb as <-.
    rewrite (lookup_concat_singletons B) in Hgb, Hkb, Hkb' by done.
    exists g, k, a, m. split_and!; [done..|].
    assert (k' = 1 - k) as ->; [|done].
    rewrite get2_rsub2, Hkb in Hkb'. by injection Hkb' as <-.
Qed.



Lemma sum_list_nonneg (r : list Qc) : Forall (λ x, 0 ≤ x) r → 0 ≤ sum_list r.
Proof.
  unfold sum_list. induction 1 as [|x r Hx _ IH]; simpl; [apply Qcle_refl|].
  by apply Qcplus_nonneg.
Qed.

Lemma column_0_singletons {A} n (m : tensor2 A) : has_shape2 n 1 m → column 0 m = concat m.
Proof.
  intros [_ Hr]. unfold column. induction Hr as [|r m Hlen _ IH]; [done|].
  destruct r as [|x [|??]]; simplify_eq/=. by f_equal.
Qed.

Lemma has_shape2_replicate {A} n m (c : A) : has_shape2 n m (replicate n (replicate m c)).
Proof. split; [apply length_replicate|]. apply Forall_replicate, length_replicate. Qed.

Lemma has_shape3_replicate {A} n m k (c : A) :
  has_shape3 n m k (replicate n (replicate m (replicate k c))).
Proof. split; [apply length_replicate|]. apply Forall_replicate, has_shape2_replicate. Qed.

Lemma lookup_cumprod_from acc (l : list Qc) p x :
  l !! p = Some x → cumprod_from acc l !! p = Some (acc * prod_list (take (S p) l)).
Proof.
  unfold prod_list. revert acc p. induction l as [|y l IH]; intros acc p Hp; [done|].
  destruct p as [|p]; simpl.
  - f_equal. destruct l; simpl; ring.
  - simpl in Hp. rewrite (IH _ _ Hp). f_equal. ring.
Qed.

(** * Calls on references, step by step *)

Section call_more.
Import HeapFacts.

Lemma call1_eq f a g va :
  g !! a = Some va →
  Heap.call1 f a g =
  match f va with
  | Ok v => (Ok (length g), g ++ [v])
  | Raised => (Raised, g)
  | NotFinite => (NotFinite, g)
  end.
Proof.
  intros Ha. unfold Heap.call1. rewrite run_bind_eq, (load_Some _ _ _ Ha), run_bind_eq.
  unfold Heap.of_outcome, Heap.new. by destruct (f va).
Qed.

Lemma call2_pair_eq f a b g va vb :
  g !! a = Some va → g !! b = Some vb →
  Heap.call2_pair f a b g =
  match f va vb with
  | Ok v => (Ok (length g, S (length g)), g ++ [v.1; v.2])
  | Raised => (Raised, g)
  | NotFinite => (NotFinite, g)
  end.
Proof.
  intros Ha Hb. unfold Heap.call2_pair.
  rewrite run_bind_eq, (load_Some _ _ _ Ha), run_bind_eq, (load_Some _ _ _ Hb), run_bind_eq.
  unfold Heap.of_outcome. destruct (f va vb) as [v| |]; [|done..].
  rewrite run_bind_eq. unfold Heap.new at 1. rewrite run_bind_eq. unfold Heap.new.
  unfold mret, Heap.run_ret. rewrite length_app, <-app_assoc. simpl.
  by rewrite Nat.add_1_r.
Qed.

Lemma call3_eq f a b c g va vb vc :
  g !! a = Some va → g !! b = Some vb → g !! c = Some vc →
  Heap.call3 f a b c g =
  match f va vb vc with
  | Ok v => (Ok (length g), g ++ [v])
  | Raised => (Raised, g)
  | NotFinite => (NotFinite, g)
  end.
Proof.
  intros Ha Hb Hc. unfold Heap.call3.
  rewrite run_bind_eq, (load_Some _ _ _ Ha), run_bind_eq, (load_Some _ _ _ Hb),
    run_bind_eq, (load_Some _ _ _ Hc), run_bind_eq.
  unfold Heap.of_outcome, Heap.new. by destruct (f va vb vc).
Qed.

Lemma call4_eq f a b c d g va vb vc vd :
  g !! a = Some va → g !! b = Some vb → g !! c = Some vc → g !! d = Some vd →
  Heap.call4 f a b c d g =
  match f va vb vc vd with
  | Ok v => (Ok (length g), g ++ [v])
  | Raised => (Raised, g)
  | NotFinite => (NotFinite, g)
  end.
Proof.
  intros Ha Hb Hc Hd. unfold Heap.call4.
  rewrite run_bind_eq, (load_Some _ _ _ Ha), run_bind_eq, (load_Some _ _ _ Hb),
    run_bind_eq, (load_Some _ _ _ Hc), run_bind_eq, (load_Some _ _ _ Hd), run_bind_eq.
  unfold Heap.of_outcome, Heap.new. by destruct (f va vb vc vd).
Qed.

Lemma T_get_content_address_float cosine_distance softmax m k s :
  Heap.T.get_content_address cosine_distance softmax (Heap.float3 m) (Heap.float3 k)
    (Heap.float2 s)
  = Heap.float3 <$> lift (get_content_address cosine_distance softmax m k s).
Proof.
  unfold Heap.T.get_content_address. by rewrite !as_float3_float3, as_float2_float2.
Qed.

Lemma T_update_usage_vector_float u r w f :
  Heap.T.update_usage_vector (Heap.float2 u) (Heap.float3 r) (Heap.float2 w) (Heap.float2 f)
  = Heap.float2 <$> lift (update_usage_vector u r w f).
Proof.
  unfold Heap.T.update_usage_vector. by rewrite as_float3_float3, !as_float2_float2.
Qed.

Lemma T_argsort_float u : Heap.T.argsort (Heap.float2 u) = Ok (Heap.Long2 (argsort u)).
Proof. unfold Heap.T.argsort. by rewrite as_float2_float2. Qed.

Lemma T_get_directional_weights_float r l :
  Heap.T.get_directional_weights (Heap.float3 r) (Heap.float3 l) = Raised.
Proof. unfold Heap.T.get_directional_weights. by rewrite !as_float3_float3. Qed.

End call_more.

(** * The claims *)

(** C1.  [get_allocation_weight] is claimed to weigh sorted position [p] by
    [(1 - sortedUsage[p])] times the exclusive cumulative product of the
    sorted usage, and to return these weights at their original slots.
    Lines 112-115 divide the inclusive product by batch row 0 of the sorted
    usage, and the last batch row once more by itself.  With one batch row
    and sorted usage (1/4, 1/2) the weights at the two sorted positions are
    (3, 1/4) where the claimed formula gives (3/4, 1/8); with two batch rows,
    row 0 follows the claimed formula and row 1 does not.  And no weight
    reaches a slot: line 117 reads an attribute that does not exist, so the
    call raises, on these operands and on every other. *)
Theorem get_allocation_weight_boundary_division :
  let self := {| mem_slot := 2; mem_size := 1; read_heads := 1; batch_size := 1 |} in
  let self2 := {| mem_slot := 2; mem_size := 1; read_heads := 1; batch_size := 2 |} in
  unordered_allocation_weight [[frac 1 4; frac 1 2]]
    = Some [[Some (frac 3 1); Some (frac 1 4)]]
  ∧ Spec.unordered_allocation_weight [[frac 1 4; frac 1 2]] = [[frac 3 4; frac 1 8]]
  ∧ get_allocation_weight self [[frac 1 4; frac 1 2]] [[1; 0]]%nat = None
  ∧ Spec.get_allocation_weight [[frac 1 4; frac 1 2]] [[1; 0]]%nat
    = Some [[frac 1 8; frac 3 4]]
  ∧ unordered_allocation_weight [[frac 1 2; frac 1 2]; [frac 1 3; frac 1 2]]
    = Some [[Some (frac 1 2); Some (frac 1 4)]; [Some (frac 4 3); Some (frac 1 3)]]
  ∧ Spec.unordered_allocation_weight [[frac 1 2; frac 1 2]; [frac 1 3; frac 1 2]]
    = [[frac 1 2; frac 1 4]; [frac 2 3; frac 1 6]]
  ∧ get_allocation_weight self2 [[frac 1 2; frac 1 2]; [frac 1 3; frac 1 2]]
      [[0; 1]; [1; 0]]%nat = None
  ∧ Spec.get_allocation_weight [[frac 1 2; frac 1 2]; [frac 1 3; frac 1 2]]
      [[0; 1]; [1; 0]]%nat
    = Some [[frac 1 2; frac 1 4]; [frac 1 6; frac 2 3]]
  ∧ ∀ self sorted_usage free_list, get_allocation_weight self sorted_usage free_list = None.
Proof.
  split_and!; try (apply (bool_decide_eq_true_1 _); by vm_compute).
  intros self sorted_usage free_list. unfold get_allocation_weight.
  by destruct (unordered_allocation_weight sorted_usage).
Qed.

(** C2.  [update_usage_vector] is claimed to multiply [u + w - u*w] by the
    product over read heads of [1 - r*f] and to stay inside [0,1].  The
    source multiplies by the product of [2 - r*f]: on one slot with usage
    1/2, read weight 1/2, write weight 0 and free gate 1 it returns 3/4 where
    the claimed formula gives 1/4, and on one slot with usage 1 and
    everything else 0 it returns 2, outside [0,1]. *)
Theorem update_usage_vector_retention_constant :
  update_usage_vector [[frac 1 2]] [[[frac 1 2]]] [[0]] [[1]] = Some [[frac 3 4]]
  ∧ Spec.update_usage_vector [[frac 1 2]] [[[frac 1 2]]] [[0]] [[1]] = Some [[frac 1 4]]
  ∧ update_usage_vector [[1]] [[[0]]] [[0]] [[0]] = Some [[2]]
  ∧ ¬ (2 ≤ 1).
Proof. split_and!; by vm_compute. Qed.

(** C3.  [update_link_matrix] is claimed to return, after every [write], a
    link matrix whose diagonal is zero.  No call returns a link matrix:
    line 232 hands [torch.mm] tensors of rank 3 and raises, whatever the
    precedence vector, the link matrix and the write weight are, and no
    call of [write] returns either.  The formula of §4.6 is not at fault: on
    operands of the configured shape it gives a link matrix of shape
    [B,N,N] whose entries (b,i,i) are all 0.  The mask of line 233 is 0 on
    the diagonal, and it multiplies: an entry that is not a finite number
    is not turned into 0. *)
Theorem update_link_matrix_returns_nothing self precedence_vector link_matrix write_weight :
  update_link_matrix self precedence_vector link_matrix write_weight = None
  ∧ (∀ cosine_distance softmax memory_matrix usage_vector read_weights
       previous_write_weight key strength free_gates allocation_gate write_gate
       write_vector erase_vector,
       write cosine_distance softmax self memory_matrix usage_vector read_weights
         previous_write_weight precedence_vector link_matrix key strength free_gates
         allocation_gate write_gate write_vector erase_vector = None)
  ∧ update_link_matrix
      {| mem_slot := 2; mem_size := 1; read_heads := 1; batch_size := 1 |}
      [[frac 1 2; frac 1 3]] [[[0; frac 1 2]; [frac 5 1; frac 7 1]]] [[frac 1 5; frac 1 7]]
    = None
  ∧ Spec.update_link_matrix 2
      [[frac 1 2; frac 1 3]] [[[0; frac 1 2]; [frac 5 1; frac 7 1]]] [[frac 1 5; frac 1 7]]
    = Some [[[0; frac 83 210]; [frac 47 14; 0]]]
  ∧ (∀ B,
       has_shape2 B (mem_slot self) precedence_vector →
       has_shape3 B (mem_slot self) (mem_slot self) link_matrix →
       has_shape2 B (mem_slot self) write_weight →
       ∃ new_link_matrix,
         Spec.update_link_matrix (mem_slot self) precedence_vector link_matrix write_weight
           = Some new_link_matrix
         ∧ has_shape3 B (mem_slot self) (mem_slot self) new_link_matrix
         ∧ ∀ b i, (b < B)%nat → (i < mem_slot self)%nat →
             get3 new_link_matrix b i i = Some 0)
  ∧ (∀ i, (i < mem_slot self)%nat → get2 (rsub2 1 (Memory_I self)) i i = Some 0)
  ∧ xscale 0 None = None.
Proof.
  split_and!; try done.
  - unfold update_link_matrix. by destruct (pointwise3 _ _ _).
  - intros. unfold write.
    destruct (get_content_address _ _ _ _ _); simpl; [|done].
    by destruct (update_usage_vector _ _ _ _).
  - apply (bool_decide_eq_true_1 _). by vm_compute.
  - intros B Hp Hl Hw.
    destruct (update_link_matrix_total (mem_slot self) B _ _ _ Hp Hl Hw) as (L & HL & Hs).
    exists L. split_and!; [done..|]. intros b i Hb Hi.
    destruct (get3_is_Some _ _ _ _ b i i Hs) as [x Hx]; [done..|].
    by rewrite Hx, (update_link_matrix_diagonal_zero _ _ _ _ _ _ _ _ HL Hx).
  - intros i Hi. unfold Memory_I. rewrite get2_rsub2, (get2_eye _ i i Hi Hi).
    rewrite decide_True by done. simpl. f_equal; ring.
Qed.

(** C4.  [get_directional_weights] is claimed to return [L·r] and
    [transpose(L)·r] with the two slot dimensions of [L] exchanged.  It
    returns neither: lines 254 and 255 hand [torch.mm] tensors of rank 3,
    and the call raises on every operand.  The operand that line 255 builds
    for the backward product is not the claimed one either: it exchanges
    the batch dimension with the first slot dimension.  With two batch rows
    and two slots the product over the slot dimension of that operand with
    [r] is zero where the claimed backward weight is 1 at slot 1 of batch
    row 0, and with one batch row and two slots the shapes do not fit. *)
Theorem get_directional_weights_transposes_batch :
  let L : tensor3 Qc := [[[0; 1]; [0; 0]]; [[0; 0]; [0; 0]]] in
  let r : tensor3 Qc := [[[1]; [0]]; [[0]; [0]]] in
  (∀ read_weights link_matrix, get_directional_weights read_weights link_matrix = None)
  ∧ get_directional_weights r L = None
  ∧ Spec.get_directional_weights r L
    = Some ([[[0]; [0]]; [[0]; [0]]], [[[0]; [1]]; [[0]; [0]]])
  ∧ transpose_0_1 L = [[[0; 1]; [0; 0]]; [[0; 0]; [0; 0]]]
  ∧ Spec.transpose_1_2 L = [[[0; 0]; [1; 0]]; [[0; 0]; [0; 0]]]
  ∧ Spec.bmm (transpose_0_1 L) r = Some [[[0]; [0]]; [[0]; [0]]]
  ∧ get_directional_weights [[[1]; [0]]] [[[0; 1]; [0; 0]]] = None
  ∧ Spec.bmm (transpose_0_1 [[[0; 1]; [0; 0]]]) [[[1]; [0]]] = None
  ∧ Spec.get_directional_weights [[[1]; [0]]] [[[0; 1]; [0; 0]]]
    = Some ([[[0]; [0]]], [[[0]; [1]]]).
Proof. split_and!; try done; apply (bool_decide_eq_true_1 _); by vm_compute. Qed.

(** C5.  A write whose weight is zero at every slot is claimed to leave
    the memory bank as it was.  [update_memory] returns no memory bank:
    line 183 hands [torch.mm] tensors of rank 3 and raises, on a zero write
    weight as on every other.  The formula of §4.5 is not at fault: for a
    memory bank of shape [B,N,W], write and erase vectors of shape [B,W] and
    an all-zero write weight of shape [B,N] it gives the memory bank it was
    given. *)
Theorem update_memory_returns_nothing
    (memory_matrix : tensor3 Qc) (write_weight write_vector erase_vector : tensor2 Qc) :
  update_memory memory_matrix write_weight write_vector erase_vector = None
  ∧ update_memory [[[frac 1 2; frac 1 3]; [frac 1 5; 1]]] [[0; 0]] [[frac 1 7; 2]]
      [[1; frac 1 2]] = None
  ∧ Spec.update_memory [[[frac 1 2; frac 1 3]; [frac 1 5; 1]]] [[0; 0]] [[frac 1 7; 2]]
      [[1; frac 1 2]]
    = Some [[[frac 1 2; frac 1 3]; [frac 1 5; 1]]]
  ∧ (∀ B N W,
       has_shape3 B N W memory_matrix →
       has_shape2 B N write_weight →
       has_shape2 B W write_vector →
       has_shape2 B W erase_vector →
       Forall (Forall (λ x, x = 0)) write_weight →
       Spec.update_memory memory_matrix write_weight write_vector erase_vector
         = Some memory_matrix).
Proof.
split_and!; try done; try (apply (bool_decide_eq_true_1 _); by vm_compute).
intros B N W Hm Hw Hv He Hz. unfold Spec.update_memory.
assert (has_shape3 B N W (rsub3 1 (outer write_weight erase_vector))) as Hs1
  by eauto using has_shape3_rsub3, has_shape3_outer.
assert (has_shape3 B N W (outer write_weight write_vector)) as Hs2
  by eauto using has_shape3_outer.
rewrite !outer_product_outer by (destruct Hw, Hv, He; congruence). simpl.
rewrite pointwise3_zip by eauto using has_shape3_Forall2. simpl.
rewrite pointwise3_zip by eauto using has_shape3_Forall2, has_shape3_zip_with.
f_equal. apply (tensor3_ext B N W); eauto using has_shape3_zip_with.
intros b i j. rewrite !get3_zip_with, get3_rsub3, !get3_outer.
destruct (get3 memory_matrix b i j) as [x|] eqn:Hx; simpl; [|done].
destruct (get3_Some_lt _ _ _ _ _ _ _ _ Hm Hx) as (Hb & Hi & Hj).
destruct (get2_is_Some _ _ _ b i Hw) as [w Hwx]; [done..|].
destruct (get2_is_Some _ _ _ b j Hv) as [v Hvx]; [done..|].
destruct (get2_is_Some _ _ _ b j He) as [e Hex]; [done..|].
rewrite Hwx, Hvx, Hex. simpl. f_equal.
rewrite (get2_Forall _ _ _ _ _ Hz Hwx). ring.
Qed.

Section content_addressing_claim.
Import Real.
Local Open Scope R_scope.

(** C6.  Over the real numbers, for a memory bank of shape [B,N,W] with at
    least one slot and one word entry, keys of shape [B,W,K] and strengths of
    shape [B,K], the weights [get_content_address] returns for key [k] of
    batch row [b] are non-negative and sum to 1 over the slots. *)
Theorem get_content_address_distribution epsilon B N W K
    (memory_matrix keys : tensor3 R) (strengths : tensor2 R) :
  (0 < N)%nat → (0 < W)%nat →
  has_shape3 B N W memory_matrix →
  has_shape3 B W K keys →
  has_shape2 B K strengths →
  ∀ b k, (b < B)%nat → (k < K)%nat →
    ∃ weights,
      get_content_address epsilon memory_matrix keys strengths !! b = Some weights
      ∧ has_shape2 N K weights
      ∧ Forall (λ x, 0 <= x) (column k weights)
      ∧ sum_list (column k weights) = 1
      ∧ Rabs (sum_list (column k weights) - 1) <= 1 / 100000.
Proof.
  intros HN HW [Hm Hrm] [Hk Hrk] [Hs Hrs] b k Hb Hkk.
  destruct (lookup_lt_is_Some_2 memory_matrix b) as [mb Hmb]; [lia|].
  destruct (lookup_lt_is_Some_2 keys b) as [kb Hkb]; [lia|].
  destruct (lookup_lt_is_Some_2 strengths b) as [sb Hsb]; [lia|].
  rewrite Forall_lookup in Hrm. specialize (Hrm _ _ Hmb).
  rewrite Forall_lookup in Hrk. specialize (Hrk _ _ Hkb).
  rewrite Forall_lookup in Hrs. specialize (Hrs _ _ Hsb). simpl in Hrs.
  set (scaled := (λ row, zip_with Rmult row sb) <$>
                   ((λ slot, (λ key, cosine epsilon slot key) <$> transpose_0_1 kb) <$> mb)).
  assert (has_shape2 N K scaled) as Hscaled.
  { destruct Hrm as [HmN _]. split; [unfold scaled; by rewrite !length_fmap|].
    unfold scaled. rewrite <-list_fmap_compose. apply Forall_fmap, Forall_true.
    intros slot. simpl. rewrite length_zip_with, length_fmap.
    rewrite (length_transpose_0_1 kb W K) by done. lia. }
  exists (softmax_slots scaled). split_and!.
  - unfold get_content_address, softmax_1, cosine_distance.
    rewrite list_lookup_fmap, !lookup_zip_with, Hmb, Hkb. simpl. by rewrite Hsb.
  - by apply has_shape2_softmax_slots.
  - destruct (column_softmax_sum scaled N K k) as [_ Hpos]; [done..|].
    eapply Forall_impl; [done|]. intros x Hx. simpl in Hx. lra.
  - by destruct (column_softmax_sum scaled N K k).
  - destruct (column_softmax_sum scaled N K k) as [-> _]; [done..|].
    rewrite Rminus_diag, Rabs_R0. lra.
Qed.

Lemma get_content_address_distribution_witness :
  ∃ weights,
    get_content_address (1 / 1000000) [[[1; 0]; [0; 1]]] [[[1]; [0]]] [[1]] !! 0%nat
      = Some weights
    ∧ sum_list (column 0 weights) = 1.
Proof.
  destruct (get_content_address_distribution (1 / 1000000) 1 2 2 1
              [[[1; 0]; [0; 1]]] [[[1]; [0]]] [[1]]) with (b := 0%nat) (k := 0%nat)
    as (w & Hw & _ & _ & Hsum & _).
  - lia.
  - lia.
  - repeat constructor.
  - repeat constructor.
  - repeat constructor.
  - lia.
  - lia.
  - exists w. split; [exact Hw|exact Hsum].
Defined.

End content_addressing_claim.

(** C7.  Lines 112 and 113 divide by batch row 0 and by the last batch row
    of the sorted usage without a guard.  For a sorted usage of shape [B,N]
    with at least one batch row, the tensor [unordered_allocation_weight] of
    line 115 is computed, and a zero divisor leaves an entry that is not a
    finite number: where row 0 is zero at position [p], at [p] in every
    batch row; where the last row is zero at [p], at [p] in the last row;
    and for the all-zero usage vector, which is the usage vector of the
    initial state, at every position. *)
Theorem unordered_allocation_weight_zero_divisor B N (sorted_usage : tensor2 Qc) :
  (0 < B)%nat →
  has_shape2 B N sorted_usage →
  ∃ unordered,
    unordered_allocation_weight sorted_usage = Some unordered
    ∧ has_shape2 B N unordered
    ∧ (∀ b p, (b < B)%nat → get2 sorted_usage 0 p = Some 0 →
         get2 unordered b p = Some None)
    ∧ (∀ p, get2 sorted_usage (B - 1) p = Some 0 →
         get2 unordered (B - 1) p = Some None)
    ∧ (sorted_usage = zeros2 B N →
         ∀ b p, (b < B)%nat → (p < N)%nat → get2 unordered b p = Some None).
Proof.
  intros HB Hs.
  destruct (lookup_lt_is_Some_2 sorted_usage 0) as [u0 H0]; [destruct Hs; lia|].
  destruct (lookup_lt_is_Some_2 sorted_usage (B - 1)) as [ul Hl']; [destruct Hs; lia|].
  assert (last sorted_usage = Some ul) as Hl.
  { rewrite last_lookup. destruct Hs as [-> _]. by replace (Init.Nat.pred B) with (B - 1)%nat by lia. }
  assert (length u0 = N) as Hl0 by eauto using has_shape2_lookup.
  assert (length ul = N) as Hll by eauto using has_shape2_lookup.
  set (un := zip_with (zip_with xscale) (rsub2 1 sorted_usage)
               (shifted_cumprod_113 sorted_usage u0 ul)).
  assert (has_shape2 B N un) as Hun.
  { apply has_shape2_zip_with; [by apply has_shape2_rsub2|].
    by apply has_shape2_shifted_cumprod_113. }
  assert (∀ b p, (b < B)%nat → (p < N)%nat →
            get2 sorted_usage 0 p = Some 0
            ∨ (b = (B - 1)%nat ∧ get2 sorted_usage b p = Some 0) →
            get2 un b p = Some None) as Hentry.
  { intros b p Hb Hp.
    destruct (get2_unordered B N sorted_usage u0 ul b p)
      as (u & c & d0 & dl & Hu & Hc & Hd0 & Hdl & Heq); [done..|].
    unfold un. rewrite Heq. clear Heq.
    assert (get2 sorted_usage 0 p = Some d0) as -> by (unfold get2; by rewrite H0).
    rewrite Hu.
    intros [[= ->]|[-> [= ->]]]; f_equal; apply xscale_None.
    - case_decide; [apply xdiv_None; left|]; by apply fdiv_None.
    - rewrite decide_True by done. apply xdiv_None. right.
      unfold get2 in Hu. rewrite Hl' in Hu. simpl in Hu. congruence. }
  exists un. split_and!.
  - by apply (unordered_allocation_weight_eq B N).
  - done.
  - intros b p Hb Hp. apply Hentry; [done| |by left].
    by destruct (get2_Some_lt _ _ _ _ _ _ Hs Hp).
  - intros p Hp. apply Hentry; [lia| |by right].
    by destruct (get2_Some_lt _ _ _ _ _ _ Hs Hp).
  - intros -> b p Hb Hp. apply Hentry; [done..|]. left. by apply get2_zeros2.
Qed.

Lemma unordered_allocation_weight_zero_divisor_witness :
  let self := {| mem_slot := 2; mem_size := 1; read_heads := 1; batch_size := 1 |} in
  ∃ unordered,
    unordered_allocation_weight (mem_usage (init_memory self)) = Some unordered
    ∧ get2 unordered 0 0 = Some None ∧ get2 unordered 0 1 = Some None.
Proof.
  intros self.
  destruct (unordered_allocation_weight_zero_divisor 1 2 (mem_usage (init_memory self)))
    as (un & Hun & _ & _ & _ & Hzero).
  - lia.
  - repeat constructor.
  - exists un. split; [exact Hun|]. split.
    + apply (Hzero eq_refl 0 0)%nat; lia.
    + apply (Hzero eq_refl 0 1)%nat; lia.
Defined.

Section object_claims.

(** C8.  No call changes a tensor it was handed.  After [read], every object
    that was on the heap holds the tensor it held, and the two references
    returned hold what the tensor-level pipeline computes from the six
    operands, which on float tensors of finite numbers is the result of
    [read] on their values.  After [write], every object that was on the heap holds the
    tensor it held too, and the memory bank returned is [update_memory] of
    the memory bank passed in, the new write weight, the write vector and
    the erase vector.  Neither call gets as far as returning references:
    [read] has raised by line 254 and [write] by line 356, so that the
    memory bank is changed by no call at all. *)
Theorem read_and_write_leave_their_operands cosine_distance softmax self h :
  (∀ memory_matrix read_weights keys strengths link_matrix read_modes vm vr vk vs vl vd,
     h !! memory_matrix = Some vm → h !! read_weights = Some vr → h !! keys = Some vk →
     h !! strengths = Some vs → h !! link_matrix = Some vl → h !! read_modes = Some vd →
     let after := Heap.read cosine_distance softmax memory_matrix read_weights keys
                    strengths link_matrix read_modes h in
     (∀ r v, h !! r = Some v → after.2 !! r = Some v)
     ∧ Heap.deref2 after
       = (λ v, (Some v.1, Some v.2)) <$> Heap.T.read cosine_distance softmax vm vr vk vs vl vd
     ∧ (∀ m r k s l d,
         vm = Heap.float3 m → vr = Heap.float3 r → vk = Heap.float3 k →
         vs = Heap.float2 s → vl = Heap.float3 l → vd = Heap.float3 d →
         Heap.deref2 after
         = (λ p, (Some (Heap.float3 p.1), Some (Heap.float3 p.2)))
             <$> lift (read cosine_distance softmax m r k s l d))
     ∧ ∀ returned, after.1 ≠ Ok returned)
  ∧ (∀ memory_matrix usage_vector read_weights write_weight precedence_vector link_matrix
       key strength free_gates allocation_gate write_gate write_vector erase_vector
       vm vu vr vw vp vl vk vs vf va vg vv ve,
     h !! memory_matrix = Some vm → h !! usage_vector = Some vu →
     h !! read_weights = Some vr → h !! write_weight = Some vw →
     h !! precedence_vector = Some vp → h !! link_matrix = Some vl →
     h !! key = Some vk → h !! strength = Some vs → h !! free_gates = Some vf →
     h !! allocation_gate = Some va → h !! write_gate = Some vg →
     h !! write_vector = Some vv → h !! erase_vector = Some ve →
     let after := Heap.write cosine_distance softmax self memory_matrix
                    usage_vector read_weights write_weight precedence_vector link_matrix
                    key strength free_gates allocation_gate write_gate write_vector
                    erase_vector h in
     (∀ r v, h !! r = Some v → after.2 !! r = Some v)
     ∧ (∀ u w m l p,
         Heap.deref5 after = Ok (Some u, Some w, Some m, Some l, Some p) →
         Heap.T.update_memory vm w vv ve = Ok m)
     ∧ ∀ returned, after.1 ≠ Ok returned).
Proof.
  split.
  - intros * Hm Hr Hk Hs Hl Hd after.
    pose proof (HeapFacts.agrees_read cosine_distance softmax h _ _ _ _ _ _ _ _ _ _ _ _
                  Hm Hr Hk Hs Hl Hd) as Hagree.
    apply (agrees_deref2 h) in Hagree as Hderef. fold after in Hderef.
    split_and!; [by eapply agrees_unchanged|done| |].
    + intros m r k s l d -> -> -> -> -> ->.
      rewrite Hderef, T_read_float.
      by destruct (lift (read cosine_distance softmax m r k s l d)).
    + eapply agrees_not_Ok; [exact Hagree|]. intros v. apply T_read_raises.
  - intros * Hm Hu Hr Hw Hp Hl Hk Hs Hf Ha Hg Hv He after.
    pose proof (HeapFacts.agrees_write cosine_distance softmax self h
                  _ _ _ _ _ _ _ _ _ _ _ _ _ _ _ _ _ _ _ _ _ _ _ _ _ _
                  Hm Hu Hr Hw Hp Hl Hk Hs Hf Ha Hg Hv He) as Hagree.
    split_and!; [by eapply agrees_unchanged| |].
    + intros u w m l p Hd. apply (agrees_deref5 h) in Hagree. fold after in Hagree.
      rewrite Hagree in Hd.
      destruct (Heap.T.write _ _ _ _ _ _ _ _ _ _ _ _ _ _ _ _) as [[[[[u' w'] m'] l'] p']| |] eqn:E;
        simplify_eq/=.
      by eapply T_write_Ok_inv.
    + eapply agrees_not_Ok; [exact Hagree|]. intros v. apply T_write_raises.
Qed.

Lemma read_and_write_leave_their_operands_witness :
  (Heap.read toy_cosine_distance toy_softmax 0 1 2 3 4 5 toy_heap).2 !! 0%nat
  = Some (Heap.float3 [[[1]]])
  ∧ (Heap.write toy_cosine_distance toy_softmax toy_self 0 3 1 3 3 4 2 3 3 3 3 3 3
       toy_heap).2 !! 0%nat
    = Some (Heap.float3 [[[1]]]).
Proof.
  destruct (read_and_write_leave_their_operands toy_cosine_distance toy_softmax
              toy_self toy_heap) as [Hread Hwrite].
  split.
  - destruct (Hread 0%nat 1%nat 2%nat 3%nat 4%nat 5%nat (Heap.float3 [[[1]]]) (Heap.float3 [[[1]]])
                (Heap.float3 [[[1]]]) (Heap.float2 [[1]]) (Heap.float3 [[[0]]])
                (Heap.float3 [[[0]; [1]; [0]]])) as [Hframe _]; [reflexivity..|].
    apply Hframe. reflexivity.
  - destruct (Hwrite 0%nat 3%nat 1%nat 3%nat 3%nat 4%nat 2%nat 3%nat 3%nat 3%nat 3%nat
                3%nat 3%nat (Heap.float3 [[[1]]]) (Heap.float2 [[1]]) (Heap.float3 [[[1]]]) (Heap.float2 [[1]])
                (Heap.float2 [[1]]) (Heap.float3 [[[0]]]) (Heap.float3 [[[1]]]) (Heap.float2 [[1]])
                (Heap.float2 [[1]]) (Heap.float2 [[1]]) (Heap.float2 [[1]]) (Heap.float2 [[1]]) (Heap.float2 [[1]]))
      as [Hframe _]; [reflexivity..|].
    apply Hframe. reflexivity.
Defined.

End object_claims.

(** C10.  [init_memory] fills the memory bank, the write weight, the read
    weights and the read vectors with 1e-6, stored as the float32 nearest to
    it, which is not zero and is within 1e-14 of 1e-6, and leaves usage,
    precedence and link matrix at zero.  A row of the write weight, and the
    weights of one read head over the slots, sum to slotCount * 1e-6, which
    is 1 for no slot count: they are not probability distributions. *)
Theorem init_memory_values self :
  let B := batch_size self in
  let N := mem_slot self in
  let W := mem_size self in
  let R := read_heads self in
  let state := init_memory self in
  mem_mat state = replicate B (replicate N (replicate W eps6))
  ∧ write_weight state = replicate B (replicate N eps6)
  ∧ read_weight state = replicate B (replicate N (replicate R eps6))
  ∧ read_vec state = replicate B (replicate W (replicate R eps6))
  ∧ mem_usage state = replicate B (replicate N 0)
  ∧ pre_vec state = replicate B (replicate N 0)
  ∧ link_mat state = replicate B (replicate N (replicate N 0))
  ∧ eps6 = frac 8796093 8796093022208 ∧ eps6 ≠ 0
  ∧ 0 ≤ frac 1 1000000 - eps6 ∧ frac 1 1000000 - eps6 ≤ frac 1 100000000000000
  ∧ (∀ row, row ∈ write_weight state → sum_list row = Qc_of_Z (Z.of_nat N) * eps6)
  ∧ (∀ m h, m ∈ read_weight state → (h < R)%nat →
       sum_list (column h m) = Qc_of_Z (Z.of_nat N) * eps6)
  ∧ Qc_of_Z (Z.of_nat N) * eps6 ≠ 1.
Proof.
  intros B N W R state. unfold state, init_memory. cbn [mem_mat write_weight read_weight
    read_vec mem_usage pre_vec link_mat]. fold B N W R.
  rewrite !fill_3_zeros, fill_2_zeros.
  split_and!; try done; try (by apply (bool_decide_eq_true_1 _)).
  - intros row Hrow%elem_of_replicate. destruct Hrow as [-> _]. apply sum_list_replicate.
  - intros m h Hm%elem_of_replicate Hh. destruct Hm as [-> _].
    rewrite column_replicate by done. apply sum_list_replicate.
  - apply slots_times_eps6.
Qed.

Lemma init_memory_values_witness :
  let self := {| mem_slot := 4; mem_size := 2; read_heads := 1; batch_size := 1 |} in
  write_weight (init_memory self) = [[eps6; eps6; eps6; eps6]]
  ∧ sum_list [eps6; eps6; eps6; eps6] = Qc_of_Z 4 * eps6
  ∧ Qc_of_Z 4 * eps6 ≠ 1.
Proof.
  intros self.
  destruct (init_memory_values self)
    as (_ & Hww & _ & _ & _ & _ & _ & _ & _ & _ & _ & Hw & _ & Hone).
  split_and!.
  - exact Hww.
  - apply (Hw [eps6; eps6; eps6; eps6]). rewrite Hww. vm_compute. left.
  - exact Hone.
Defined.

(** * Further properties of the code *)

(** X1.  [update_usage_vector] on operands of the documented shapes returns
    a usage vector of shape [B,N] whose entry at slot [i] of batch row [b] is
    [(u + w - u*w)] times the product over the read heads of
    [2 - r*f].  With usage, weights and gates between 0 and 1 every factor
    is at least 1: the new usage of a slot is never below its old usage nor
    below its write weight, whatever the free gates are. *)
Theorem update_usage_vector_never_frees B N R
    (usage_vector : tensor2 Qc) (read_weights : tensor3 Qc)
    (write_weight free_gates : tensor2 Qc) :
  has_shape2 B N usage_vector →
  has_shape3 B N R read_weights →
  has_shape2 B N write_weight →
  has_shape2 B R free_gates →
  ∃ new_usage_vector,
    update_usage_vector usage_vector read_weights write_weight free_gates
      = Some new_usage_vector
    ∧ has_shape2 B N new_usage_vector
    ∧ (∀ b i u w r f,
         get2 usage_vector b i = Some u → get2 write_weight b i = Some w →
         get2 read_weights b i = Some r → free_gates !! b = Some f →
         get2 new_usage_vector b i
         = Some ((u + w - u * w) * prod_list (zip_with (λ x g, 2 - x * g) r f)))
    ∧ (Forall (Forall in_unit) usage_vector → Forall (Forall (Forall in_unit)) read_weights →
       Forall (Forall in_unit) write_weight → Forall (Forall in_unit) free_gates →
       ∀ b i u w v,
         get2 usage_vector b i = Some u → get2 write_weight b i = Some w →
         get2 new_usage_vector b i = Some v → u ≤ v ∧ w ≤ v).
Proof.
  intros Hu Hr Hw Hf.
  destruct (update_usage_vector_entries B N R _ _ _ _ Hu Hr Hw Hf)
    as (new & Hnew & Hnews & Hentry).
  exists new. split_and!; [done..|].
  intros Huu Hru Hwu Hfu b i u w v Hux Hwx Hv.
  destruct (get2_Some_lt _ _ _ _ _ _ Hu Hux) as [Hb Hi].
  assert (has_shape2 B N read_weights) as Hr2.
  { destruct Hr as [HB Hr]. split; [done|]. eapply Forall_impl; [exact Hr|].
    by intros m [? _]. }
  destruct (get2_is_Some _ _ _ b i Hr2) as [r Hrx]; [done..|].
  destruct (lookup_lt_is_Some_2 free_gates b) as [f Hfx]; [destruct Hf; lia|].
  rewrite (Hentry _ _ _ _ _ _ Hux Hwx Hrx Hfx) in Hv. injection Hv as <-.
  destruct (get2_Forall in_unit _ _ _ _ Huu Hux) as [Hu0 Hu1].
  destruct (get2_Forall in_unit _ _ _ _ Hwu Hwx) as [Hw0 Hw1].
  assert (1 ≤ prod_list (zip_with (λ x g, 2 - x * g) r f)) as Hprod.
  { apply prod_list_ge_1, Forall_lookup. intros h y Hy.
    apply lookup_zip_with_Some in Hy as (x & g & -> & Hx & Hg).
    assert (in_unit x) as Hxu.
    { unfold get2 in Hrx. destruct (read_weights !! b) as [m|] eqn:Hm; simplify_eq/=.
      rewrite Forall_lookup in Hru. specialize (Hru _ _ Hm).
      rewrite Forall_lookup in Hru. specialize (Hru _ _ Hrx).
      rewrite Forall_lookup in Hru. by apply (Hru h). }
    assert (in_unit g) as Hgu.
    { rewrite Forall_lookup in Hfu. specialize (Hfu _ _ Hfx).
      rewrite Forall_lookup in Hfu. by apply (Hfu h). }
    destruct (in_unit_mult x g Hxu Hgu) as [_ Hle].
    apply (proj2 (Qcle_0_minus _ _)).
    replace (2 - x * g - 1) with (1 - x * g) by ring. by apply (proj1 (Qcle_0_minus _ _)). }
  set (P := prod_list _) in *.
  assert (0 ≤ u + w - u * w) as Ht.
  { replace (u + w - u * w) with (u + w * (1 - u)) by ring.
    apply Qcplus_nonneg; [done|]. apply Qcmult_nonneg; [done|].
    by apply (proj1 (Qcle_0_minus _ _)). }
  assert (u + w - u * w ≤ (u + w - u * w) * P) as Hgrow.
  { apply (proj2 (Qcle_0_minus _ _)).
    replace ((u + w - u * w) * P - (u + w - u * w)) with ((u + w - u * w) * (P - 1)) by ring.
    apply Qcmult_nonneg; [done|]. by apply (proj1 (Qcle_0_minus _ _)). }
  split; (eapply Qcle_trans; [|exact Hgrow]); apply (proj2 (Qcle_0_minus _ _)).
  - replace (u + w - u * w - u) with (w * (1 - u)) by ring.
    apply Qcmult_nonneg; [done|]. by apply (proj1 (Qcle_0_minus _ _)).
  - replace (u + w - u * w - w) with (u * (1 - w)) by ring.
    apply Qcmult_nonneg; [done|]. by apply (proj1 (Qcle_0_minus _ _)).
Qed.

Lemma update_usage_vector_never_frees_witness :
  ∃ new_usage_vector,
    update_usage_vector [[frac 1 2; 0]] [[[frac 1 2]; [1]]] [[frac 1 4; 1]] [[1]]
      = Some new_usage_vector
    ∧ ∀ v, get2 new_usage_vector 0 0 = Some v → frac 1 2 ≤ v.
Proof.
  destruct (update_usage_vector_never_frees 1 2 1 [[frac 1 2; 0]] [[[frac 1 2]; [1]]]
              [[frac 1 4; 1]] [[1]]) as (u & Hu & _ & _ & Hmono); [repeat constructor..|].
  exists u. split; [exact Hu|]. intros v Hv.
  destruct (Hmono) with (b := 0%nat) (i := 0%nat) (u := frac 1 2) (w := frac 1 4) (v := v)
    as [Hle _]; [by apply (bool_decide_eq_true_1 _)..|reflexivity|reflexivity|exact Hv|].
  exact Hle.
Defined.

(** X2.  The first usage update after [init_memory]: with free gates between
    0 and 1, [update_usage_vector] on the initial usage, read weights and
    write weight returns a usage vector of shape [B,N] whose entries are all
    at least the 1e-6 that [init_memory] stored, hence none of them is 0. *)
Theorem init_memory_first_usage self free_gates :
  has_shape2 (batch_size self) (read_heads self) free_gates →
  Forall (Forall in_unit) free_gates →
  ∃ new_usage_vector,
    update_usage_vector (mem_usage (init_memory self)) (read_weight (init_memory self))
      (write_weight (init_memory self)) free_gates = Some new_usage_vector
    ∧ has_shape2 (batch_size self) (mem_slot self) new_usage_vector
    ∧ Forall (Forall (λ u, eps6 ≤ u ∧ u ≠ 0)) new_usage_vector.
Proof.
  intros Hf Hfu. unfold init_memory. cbn [mem_usage read_weight write_weight].
  rewrite fill_3_zeros, fill_2_zeros. unfold zeros2, zeros1.
  set (B := batch_size self) in *. set (N := mem_slot self). set (R := read_heads self) in *.
  destruct (update_usage_vector_entries B N R (replicate B (replicate N 0))
              (replicate B (replicate N (replicate R eps6)))
              (replicate B (replicate N eps6)) free_gates)
    as (new & Hnew & Hs & Hentry);
    [apply has_shape2_replicate|apply has_shape3_replicate|apply has_shape2_replicate|done|].
  exists new. split_and!; [done..|].
  apply (Forall_get2 _ B N); [done|]. intros b i v Hb Hi Hv.
  destruct (lookup_lt_is_Some_2 free_gates b) as [f Hfx]; [destruct Hf; lia|].
  rewrite (Hentry b i 0 eps6 (replicate R eps6) f) in Hv; [|unfold get2..|done].
  2-4: rewrite lookup_replicate_2 by done; simpl; by rewrite lookup_replicate_2.
  injection Hv as <-.
  assert (1 ≤ prod_list (zip_with (λ x g, 2 - x * g) (replicate R eps6) f)) as Hprod.
  { apply prod_list_ge_1, Forall_lookup. intros h y Hy.
    apply lookup_zip_with_Some in Hy as (x & g & -> & Hx & Hg).
    apply lookup_replicate in Hx as [-> _].
    assert (in_unit g) as Hgu.
    { rewrite Forall_lookup in Hfu. specialize (Hfu _ _ Hfx).
      rewrite Forall_lookup in Hfu. by apply (Hfu h). }
    assert (in_unit eps6) as He by (split; by apply (bool_decide_eq_true_1 _)).
    destruct (in_unit_mult eps6 g He Hgu) as [_ Hle].
    apply (proj2 (Qcle_0_minus _ _)).
    replace (2 - eps6 * g - 1) with (1 - eps6 * g) by ring.
    by apply (proj1 (Qcle_0_minus _ _)). }
  set (P := prod_list _) in *.
  assert (eps6 ≤ (0 + eps6 - 0 * eps6) * P) as Hle.
  { replace ((0 + eps6 - 0 * eps6) * P) with (eps6 * P) by ring.
    apply Qcle_trans with (eps6 * 1); [replace (eps6 * 1) with eps6 by ring; apply Qcle_refl|].
    apply Qcmult_le_mono_l; [by apply (bool_decide_eq_true_1 _)|done]. }
  split; [done|]. intros Hz. rewrite Hz in Hle. revert Hle. by apply (bool_decide_eq_false_1 _).
Qed.

Lemma init_memory_first_usage_witness :
  let self := {| mem_slot := 2; mem_size := 1; read_heads := 1; batch_size := 1 |} in
  ∃ new_usage_vector,
    update_usage_vector (mem_usage (init_memory self)) (read_weight (init_memory self))
      (write_weight (init_memory self)) [[frac 1 2]] = Some new_usage_vector
    ∧ Forall (Forall (λ u, eps6 ≤ u ∧ u ≠ 0)) new_usage_vector.
Proof.
  intros self.
  destruct (init_memory_first_usage self [[frac 1 2]]) as (u & Hu & _ & Hpos).
  - repeat constructor.
  - by apply (bool_decide_eq_true_1 _).
  - exists u. split; [exact Hu|exact Hpos].
Defined.

(** X3.  What [get_allocation_weight] weighs a sorted position with.  On a
    sorted usage of shape [B,N] with at least one batch row, the entry of
    [unordered_allocation_weight] at row [b] and position [p] is [1 - u]
    times the product of the row up to and including [p], divided by the
    first row's entry at [p] when that is not 0, and in the last row divided
    once more by that row's own entry when that is not 0. *)
Theorem unordered_allocation_weight_formula B N (sorted_usage : tensor2 Qc) :
  (0 < B)%nat →
  has_shape2 B N sorted_usage →
  ∃ unordered,
    unordered_allocation_weight sorted_usage = Some unordered
    ∧ has_shape2 B N unordered
    ∧ ∀ b p row u d_first d_last,
        sorted_usage !! b = Some row → row !! p = Some u →
        get2 sorted_usage 0 p = Some d_first → get2 sorted_usage (B - 1) p = Some d_last →
        d_first ≠ 0 → (b = (B - 1)%nat → d_last ≠ 0) →
        get2 unordered b p
        = Some (Some (if decide (b = B - 1)%nat
                      then (1 - u) * (prod_list (take (S p) row) / d_first / d_last)
                      else (1 - u) * (prod_list (take (S p) row) / d_first))).
Proof.
  intros HB Hs.
  destruct (lookup_lt_is_Some_2 sorted_usage 0) as [u0 H0]; [destruct Hs; lia|].
  destruct (lookup_lt_is_Some_2 sorted_usage (B - 1)) as [ul Hl']; [destruct Hs; lia|].
  assert (last sorted_usage = Some ul) as Hl.
  { rewrite last_lookup. destruct Hs as [-> _].
    by replace (Init.Nat.pred B) with (B - 1)%nat by lia. }
  assert (length u0 = N) as Hl0 by eauto using has_shape2_lookup.
  assert (length ul = N) as Hll by eauto using has_shape2_lookup.
  eexists. split; [by apply (unordered_allocation_weight_eq B N _ u0 ul)|].
  split.
  { apply has_shape2_zip_with; [by apply has_shape2_rsub2|].
    by apply has_shape2_shifted_cumprod_113. }
  intros b p row u d0 dl Hrow Hu Hd0 Hdl Hnz0 Hnzl.
  assert (b < B)%nat as Hb by (destruct Hs as [<- _]; eauto using lookup_lt_Some).
  assert (p < N)%nat as Hp.
  { rewrite <-(has_shape2_lookup B N _ _ _ Hs Hrow). eauto using lookup_lt_Some. }
  destruct (get2_unordered B N sorted_usage u0 ul b p)
    as (u' & c & d0' & dl' & Hu' & Hc & Hd0' & Hdl' & Heq); [done..|].
  rewrite Heq. clear Heq.
  unfold get2 in Hu', Hd0, Hdl, Hc. rewrite Hrow in Hu'. rewrite H0 in Hd0. rewrite Hl' in Hdl.
  simpl in *. rewrite Hu in Hu'. rewrite Hd0' in Hd0. rewrite Hdl' in Hdl.
  injection Hu' as <-. injection Hd0 as ->. injection Hdl as ->.
  unfold cumprod_1 in Hc. rewrite list_lookup_fmap, Hrow in Hc. simpl in Hc.
  rewrite (lookup_cumprod_from _ _ _ _ Hu) in Hc. injection Hc as <-.
  assert (∀ x y : Qc, y ≠ 0 → fdiv x y = Some (x / y)) as Hdiv.
  { intros x y Hy. unfold fdiv. by rewrite decide_False. }
  f_equal. rewrite (Hdiv _ d0) by done. case_decide.
  - simpl. rewrite (Hdiv _ dl) by auto. simpl. f_equal. field. auto.
  - simpl. f_equal. field. done.
Qed.

Lemma unordered_allocation_weight_formula_witness :
  ∃ unordered,
    unordered_allocation_weight [[frac 1 4; frac 1 2]] = Some unordered
    ∧ get2 unordered 0 1
      = Some (Some ((1 - frac 1 2) * (prod_list [frac 1 4; frac 1 2] / frac 1 2 / frac 1 2))).
Proof.
  destruct (unordered_allocation_weight_formula 1 2 [[frac 1 4; frac 1 2]])
    as (un & Hun & _ & Hentry); [lia|repeat constructor|].
  exists un. split; [exact Hun|].
  apply (Hentry 0%nat 1%nat [frac 1 4; frac 1 2] (frac 1 2) (frac 1 2) (frac 1 2));
    [reflexivity..|by apply (bool_decide_eq_true_1 _)|
     intros _; by apply (bool_decide_eq_true_1 _)].
Defined.

(** X6.  [update_write_weight] on a lookup weight of shape [B,N,1], an
    allocation weight of shape [B,N] and gates of shape [B,1] returns a write
    weight of shape [B,N] with entries
    [g * (k * allocation + (1 - k) * lookup)], [g] the write gate and [k] the
    allocation gate of the batch row.  With gates between 0 and 1 and
    allocation and lookup weights that are non-negative and sum to at most 1
    over the slots, so is every row of the write weight. *)
Theorem update_write_weight_entry B N
    (lookup_weight : tensor3 Qc) (allocation_weight write_gate allocation_gate : tensor2 Qc) :
  has_shape3 B N 1 lookup_weight →
  has_shape2 B N allocation_weight →
  has_shape2 B 1 write_gate →
  has_shape2 B 1 allocation_gate →
  ∃ new_write_weight,
    update_write_weight lookup_weight allocation_weight write_gate allocation_gate
      = Some new_write_weight
    ∧ has_shape2 B N new_write_weight
    ∧ (∀ b i c a g k,
         get3 lookup_weight b i 0 = Some c → get2 allocation_weight b i = Some a →
         get2 write_gate b 0 = Some g → get2 allocation_gate b 0 = Some k →
         get2 new_write_weight b i = Some (g * (k * a + (1 - k) * c)))
    ∧ (Forall (Forall in_unit) write_gate → Forall (Forall in_unit) allocation_gate →
       Forall sub_distribution allocation_weight →
       Forall (λ m, sub_distribution (column 0 m)) lookup_weight →
       Forall sub_distribution new_write_weight).
Proof.
  intros Hl Ha Hg Hk.
  destruct (update_write_weight_closed_form B N _ _ _ _ Hl Ha Hg Hk)
    as (w & Hw & Hs & Hrows).
  exists w. split_and!; [done..| |].
  - intros b i c a g k Hc Hax Hgx Hkx.
    destruct (get2_Some_lt _ _ _ _ _ _ Ha Hax) as [Hb Hi].
    destruct (lookup_lt_is_Some_2 w b) as [row Hrow]; [destruct Hs; lia|].
    destruct (Hrows _ _ Hrow) as (g' & k' & ar & m & Hg' & Hk' & Har & Hm & ->).
    unfold get2 at 1. rewrite Hrow. simpl.
    unfold get2 in Hax. rewrite Har in Hax. simpl in Hax.
    unfold get3 in Hc. rewrite Hm in Hc. simpl in Hc.
    assert (has_shape2 N 1 m) as Hms.
    { destruct Hl as [_ Hl]. rewrite Forall_lookup in Hl. eauto. }
    rewrite <-(lookup_concat_singletons N) in Hc by done.
    rewrite list_lookup_fmap, lookup_zip_with, !list_lookup_fmap, Hax, Hc. simpl.
    congruence.
  - intros Hgu Hku Hau Hlu. apply Forall_lookup. intros b row Hrow.
    destruct (Hrows _ _ Hrow) as (g & k & ar & m & Hgx & Hkx & Har & Hm & ->).
    assert (has_shape2 N 1 m) as Hms.
    { destruct Hl as [_ Hl]. rewrite Forall_lookup in Hl. eauto. }
    assert (length ar = N) as Hlen by apply (has_shape2_lookup B N _ _ _ Ha Har).
    assert (length (concat m) = N) as Hlen' by by apply length_concat_singletons.
    destruct (get2_Forall in_unit _ _ _ _ Hgu Hgx) as [Hg0 Hg1].
    pose proof (get2_Forall in_unit _ _ _ _ Hku Hkx) as Hkin.
    destruct (in_unit_rsub k Hkin) as [Hk0' Hk1']. destruct Hkin as [Hk0 Hk1].
    rewrite Forall_lookup in Hau. destruct (Hau _ _ Har) as [Ha0 Ha1].
    rewrite Forall_lookup in Hlu. specialize (Hlu _ _ Hm). simpl in Hlu.
    rewrite (column_0_singletons N) in Hlu by done. destruct Hlu as [Hc0 Hc1].
    split.
    + apply Forall_fmap, Forall_lookup. intros i x Hx.
      apply lookup_zip_with_Some in Hx as (y & z & -> & Hy & Hz).
      rewrite list_lookup_fmap in Hy, Hz.
      destruct (ar !! i) as [a|] eqn:Hai; simplify_eq/=.
      destruct (concat m !! i) as [c|] eqn:Hci; simplify_eq/=.
      rewrite Forall_lookup in Ha0, Hc0.
      apply Qcmult_nonneg; [done|]. apply Qcplus_nonneg; apply Qcmult_nonneg; eauto.
    + rewrite sum_list_scale_l, sum_list_zip_plus by (by rewrite !length_fmap, Hlen').
      rewrite !sum_list_scale_l.
      apply Qcle_trans with (1 * (k * 1 + (1 - k) * 1)).
      * apply Qcle_trans with (1 * (k * sum_list ar + (1 - k) * sum_list (concat m))).
        -- apply Qcmult_le_compat_r; [done|].
           apply Qcplus_nonneg; apply Qcmult_nonneg; by try apply sum_list_nonneg.
        -- apply Qcmult_le_mono_l; [by apply (bool_decide_eq_true_1 _)|].
           apply Qcplus_le_compat; by apply Qcmult_le_mono_l.
      * replace (1 * (k * 1 + (1 - k) * 1)) with 1 by ring. apply Qcle_refl.
Qed.

Lemma update_write_weight_entry_witness :
  ∃ new_write_weight,
    update_write_weight [[[frac 1 2]; [frac 1 2]]] [[1; 0]] [[frac 1 2]] [[frac 1 4]]
      = Some new_write_weight
    ∧ get2 new_write_weight 0 0
      = Some (frac 1 2 * (frac 1 4 * 1 + (1 - frac 1 4) * frac 1 2))
    ∧ Forall sub_distribution new_write_weight.
Proof.
  destruct (update_write_weight_entry 1 2 [[[frac 1 2]; [frac 1 2]]] [[1; 0]]
              [[frac 1 2]] [[frac 1 4]]) as (w & Hw & _ & Hentry & Hsub);
    [repeat constructor..|].
  exists w. split; [exact Hw|]. split.
  - apply Hentry; reflexivity.
  - apply Hsub; by apply (bool_decide_eq_true_1 _).
Defined.

(** X7.  [update_write_weight] views the lookup weight to its first two
    sizes, so the lookup weight must hold exactly one key: on a lookup
    weight of shape [B,N,K] with [B] and [N] positive and [K] other than 1
    the call raises. *)
Theorem update_write_weight_one_key B N K
    (lookup_weight : tensor3 Qc) (allocation_weight write_gate allocation_gate : tensor2 Qc) :
  has_shape3 B N K lookup_weight → (0 < B)%nat → (0 < N)%nat → K ≠ 1%nat →
  update_write_weight lookup_weight allocation_weight write_gate allocation_gate = None.
Proof.
  intros [HB Hl] HposB HposN HK. unfold update_write_weight, view_first_2.
  destruct lookup_weight as [|m t]; [simpl in HB; lia|].
  apply Forall_cons in Hl as [[Hm Hrows] _].
  destruct m as [|r m]; [simpl in Hm; lia|].
  apply Forall_cons in Hrows as [Hr _]. simpl.
  destruct (decide (length r = 1%nat)) as [|Hne]; [congruence|].
  apply Nat.eqb_neq in Hne. by rewrite Hne.
Qed.

Lemma update_write_weight_one_key_witness :
  update_write_weight [[[frac 1 2; frac 1 2]]] [[1]] [[1]] [[1]] = None.
Proof.
  apply (update_write_weight_one_key 1 1 2); [repeat constructor|lia|lia|lia].
Defined.

(** X9.  [update_precedence_vector] on a precedence vector and a write
    weight of shape [B,N] returns a precedence vector of shape [B,N] with
    entries [(1 - sum(w[b])) * p[b][i] + w[b][i]].  If the rows of both
    operands are non-negative and sum to at most 1, so are the rows of the
    result. *)
Theorem update_precedence_vector_sub_distribution B N precedence_vector write_weight :
  has_shape2 B N precedence_vector →
  has_shape2 B N write_weight →
  ∃ new_precedence_vector,
    update_precedence_vector precedence_vector write_weight = Some new_precedence_vector
    ∧ has_shape2 B N new_precedence_vector
    ∧ (∀ b i row p w,
         write_weight !! b = Some row → get2 precedence_vector b i = Some p →
         get2 write_weight b i = Some w →
         get2 new_precedence_vector b i = Some ((1 - sum_list row) * p + w))
    ∧ (Forall (λ row, Forall (λ x, 0 ≤ x) row ∧ sum_list row ≤ 1) precedence_vector →
       Forall (λ row, Forall (λ x, 0 ≤ x) row ∧ sum_list row ≤ 1) write_weight →
       Forall (λ row, Forall (λ x, 0 ≤ x) row ∧ sum_list row ≤ 1) new_precedence_vector).
Proof.
  intros Hp Hw. eexists. split; [by apply (update_precedence_vector_rows B N)|].
  split_and!.
  - destruct Hp as [Hp Hpr], Hw as [Hw Hwr]. split.
    + rewrite length_zip_with. lia.
    + apply Forall_lookup. intros b r Hr.
      apply lookup_zip_with_Some in Hr as (wr & pr & -> & Hwr' & Hpr').
      rewrite Forall_lookup in Hpr, Hwr. specialize (Hpr _ _ Hpr'). specialize (Hwr _ _ Hwr').
      rewrite length_zip_with, length_fmap. lia.
  - intros b i row p w Hrow Hpx Hwx. unfold get2 in *.
    rewrite lookup_zip_with, Hrow in *. simpl in *.
    destruct (precedence_vector !! b) as [pr|]; simplify_eq/=.
    rewrite lookup_zip_with, list_lookup_fmap, Hpx, Hwx. done.
  - intros Hpd Hwd. apply Forall_lookup. intros b r Hr.
    apply lookup_zip_with_Some in Hr as (wr & pr & -> & Hwr' & Hpr').
    rewrite Forall_lookup in Hpd, Hwd.
    destruct (Hpd _ _ Hpr') as [Hp0 Hp1]. destruct (Hwd _ _ Hwr') as [Hw0 Hw1].
    assert (0 ≤ 1 - sum_list wr) as Hs by by apply (proj1 (Qcle_0_minus _ _)).
    assert (length pr = length wr) as Hlen.
    { destruct Hp as [_ Hpr], Hw as [_ Hwr]. rewrite Forall_lookup in Hpr, Hwr.
      specialize (Hpr _ _ Hpr'). specialize (Hwr _ _ Hwr'). simpl in *. congruence. }
    split.
    + apply Forall_lookup. intros i x Hx.
      apply lookup_zip_with_Some in Hx as (y & w & -> & Hy & Hwx).
      rewrite list_lookup_fmap in Hy. destruct (pr !! i) as [p|] eqn:Hpi; simplify_eq/=.
      rewrite Forall_lookup in Hp0, Hw0.
      apply Qcplus_nonneg; [apply Qcmult_nonneg|]; eauto.
    + rewrite sum_list_zip_plus by (by rewrite length_fmap).
      rewrite sum_list_scale_l. apply (proj2 (Qcle_0_minus _ _)).
      replace (1 - ((1 - sum_list wr) * sum_list pr + sum_list wr))
        with ((1 - sum_list wr) * (1 - sum_list pr)) by ring.
      apply Qcmult_nonneg; [done|]. by apply (proj1 (Qcle_0_minus _ _)).
Qed.

Lemma update_precedence_vector_sub_distribution_witness :
  ∃ new_precedence_vector,
    update_precedence_vector [[frac 1 2; frac 1 4]] [[frac 1 4; frac 1 4]]
      = Some new_precedence_vector
    ∧ get2 new_precedence_vector 0 0
      = Some ((1 - sum_list [frac 1 4; frac 1 4]) * frac 1 2 + frac 1 4)
    ∧ Forall sub_distribution new_precedence_vector.
Proof.
  destruct (update_precedence_vector_sub_distribution 1 2 [[frac 1 2; frac 1 4]]
              [[frac 1 4; frac 1 4]]) as (p & Hp & _ & Hentry & Hsub);
    [repeat constructor..|].
  exists p. split; [exact Hp|]. split.
  - apply Hentry; reflexivity.
  - apply Hsub; by apply (bool_decide_eq_true_1 _).
Defined.

(** X12.  [update_read_weights] on weights of shape [B,N,R] and read modes
    of shape [B,3,R] returns read weights of shape [B,N,R] with entries
    [mode[b][0][h] * backward + mode[b][1][h] * lookup + mode[b][2][h] * forward].
    If the three modes of a head are non-negative and sum to 1 and the three
    weightings of that head are non-negative and sum to at most 1 over the
    slots, so is the new read weighting of that head. *)
Theorem update_read_weights_entry B N R
    (lookup_weights forward_weight backward_weight read_mode : tensor3 Qc) :
  has_shape3 B N R lookup_weights →
  has_shape3 B N R forward_weight →
  has_shape3 B N R backward_weight →
  has_shape3 B 3 R read_mode →
  ∃ new_read_weights,
    update_read_weights lookup_weights forward_weight backward_weight read_mode
      = Some new_read_weights
    ∧ has_shape3 B N R new_read_weights
    ∧ (∀ b i h l f k m0 m1 m2,
         get3 lookup_weights b i h = Some l → get3 forward_weight b i h = Some f →
         get3 backward_weight b i h = Some k →
         get3 read_mode b 0 h = Some m0 → get3 read_mode b 1 h = Some m1 →
         get3 read_mode b 2 h = Some m2 →
         get3 new_read_weights b i h = Some (m0 * k + m1 * l + m2 * f))
    ∧ (∀ b h head_modes lookup forward backward new,
         (h < R)%nat →
         column h <$> read_mode !! b = Some head_modes →
         column h <$> lookup_weights !! b = Some lookup →
         column h <$> forward_weight !! b = Some forward →
         column h <$> backward_weight !! b = Some backward →
         column h <$> new_read_weights !! b = Some new →
         Forall (λ x, 0 ≤ x) head_modes → sum_list head_modes = 1 →
         sub_distribution lookup → sub_distribution forward → sub_distribution backward →
         sub_distribution new).
Proof.
  intros Hl Hf Hk Hm. unfold update_read_weights.
  destruct (select_1_shape B 3 R read_mode 0 Hm) as (s0 & -> & Hs0 & Hg0); [lia|].
  destruct (select_1_shape B 3 R read_mode 1 Hm) as (s1 & -> & Hs1 & Hg1); [lia|].
  destruct (select_1_shape B 3 R read_mode 2 Hm) as (s2 & -> & Hs2 & Hg2); [lia|].
  simpl. rewrite !(pointwise3_rows_l _ B N R) by done. simpl.
  rewrite pointwise3_zip
    by (eapply has_shape3_Forall2; by apply has_shape3_rows_l). simpl.
  rewrite pointwise3_zip
    by (eapply has_shape3_Forall2;
        [apply has_shape3_zip_with|]; by apply has_shape3_rows_l).
  set (new := zip_with _ _ _).
  assert (has_shape3 B N R new) as Hnew.
  { apply has_shape3_zip_with; [apply has_shape3_zip_with|]; by apply has_shape3_rows_l. }
  assert (∀ b i h l f k m0 m1 m2,
         get3 lookup_weights b i h = Some l → get3 forward_weight b i h = Some f →
         get3 backward_weight b i h = Some k →
         get3 read_mode b 0 h = Some m0 → get3 read_mode b 1 h = Some m1 →
         get3 read_mode b 2 h = Some m2 →
         get3 new b i h = Some (m0 * k + m1 * l + m2 * f)) as Hentry.
  { intros b i h l f k m0 m1 m2 Hlx Hfx Hkx H0 H1 H2. unfold new.
    rewrite !get3_zip_with, !get3_rows_l, Hg0, Hg1, Hg2, H0, H1, H2, Hlx, Hfx, Hkx. done. }
  exists new. split_and!; [done..|].
  intros b h ms lc fc kc nc Hh Hms Hlc Hfc Hkc Hnc Hmpos Hmsum [Hl0 Hl1] [Hf0 Hf1] [Hk0 Hk1].
  destruct (read_mode !! b) as [mb|] eqn:Hmb; simplify_eq/=.
  destruct (lookup_weights !! b) as [lb|] eqn:Hlb; simplify_eq/=.
  destruct (forward_weight !! b) as [fb|] eqn:Hfb; simplify_eq/=.
  destruct (backward_weight !! b) as [kb|] eqn:Hkb; simplify_eq/=.
  destruct (new !! b) as [nb|] eqn:Hnb; simplify_eq/=.
  assert (has_shape2 3 R mb) as Hmbs.
  { destruct Hm as [_ Hm]. rewrite Forall_lookup in Hm. eauto. }
  assert (has_shape2 N R lb) as Hlbs.
  { destruct Hl as [_ Hl]. rewrite Forall_lookup in Hl. eauto. }
  assert (has_shape2 N R fb) as Hfbs.
  { destruct Hf as [_ Hf]. rewrite Forall_lookup in Hf. eauto. }
  assert (has_shape2 N R kb) as Hkbs.
  { destruct Hk as [_ Hk]. rewrite Forall_lookup in Hk. eauto. }
  assert (has_shape2 N R nb) as Hnbs.
  { destruct Hnew as [_ Hn]. rewrite Forall_lookup in Hn. eauto. }
  destruct (get2_is_Some _ _ _ 0 h Hmbs) as [m0 H0]; [lia|done|].
  destruct (get2_is_Some _ _ _ 1 h Hmbs) as [m1 H1]; [lia|done|].
  destruct (get2_is_Some _ _ _ 2 h Hmbs) as [m2 H2]; [lia|done|].
  assert (column h mb = [m0; m1; m2]) as Hcol.
  { apply list_eq. intros [|[|[|i]]]; rewrite (lookup_column mb 3 R) by done; simpl; try done.
    destruct (get2 mb (S (S (S i))) h) eqn:E; [|done].
    apply (get2_Some_lt 3 R) in E as [? _]; [lia|done]. }
  rewrite Hcol in Hmpos, Hmsum. unfold sum_list in Hmsum. simpl in Hmsum.
  apply Forall_cons in Hmpos as [Hm0 Hmpos]. apply Forall_cons in Hmpos as [Hm1 Hmpos].
  apply Forall_cons in Hmpos as [Hm2 _].
  assert (∀ i x y z, column h kb !! i = Some x → column h lb !! i = Some y →
            column h fb !! i = Some z →
            column h nb !! i = Some (m0 * x + m1 * y + m2 * z)) as Hcols.
  { intros i x y z. rewrite !(lookup_column _ N R) by done. intros Hx Hy Hz.
    specialize (Hentry b i h y z x m0 m1 m2). unfold get3 in Hentry.
    rewrite Hlb, Hfb, Hkb, Hmb, Hnb in Hentry. simpl in Hentry. by apply Hentry. }
  split.
  - apply Forall_lookup. intros i v Hv.
    pose proof (lookup_lt_Some _ _ _ Hv) as Hi.
    rewrite (length_column nb N R) in Hi by done.
    destruct (lookup_lt_is_Some_2 (column h kb) i) as [x Hx];
      [by rewrite (length_column kb N R)|].
    destruct (lookup_lt_is_Some_2 (column h lb) i) as [y Hy];
      [by rewrite (length_column lb N R)|].
    destruct (lookup_lt_is_Some_2 (column h fb) i) as [z Hz];
      [by rewrite (length_column fb N R)|].
    rewrite (Hcols _ _ _ _ Hx Hy Hz) in Hv. simplify_eq.
    rewrite Forall_lookup in Hl0, Hf0, Hk0.
    repeat apply Qcplus_nonneg; apply Qcmult_nonneg; eauto.
  - rewrite (sum_list_mix m0 m1 m2 (column h kb) (column h lb) (column h fb));
      [|by rewrite !(length_column _ N R)..|done].
    apply Qcle_trans with (m0 * 1 + m1 * 1 + m2 * 1).
    + repeat apply Qcplus_le_compat; by apply Qcmult_le_mono_l.
    + replace (m0 * 1 + m1 * 1 + m2 * 1) with (m0 + (m1 + (m2 + 0))) by ring.
      rewrite Hmsum. apply Qcle_refl.
Qed.

Lemma update_read_weights_entry_witness :
  ∃ new_read_weights,
    update_read_weights [[[frac 1 2]; [frac 1 2]]] [[[1]; [0]]] [[[0]; [1]]]
      [[[frac 1 4]; [frac 1 2]; [frac 1 4]]] = Some new_read_weights
    ∧ get3 new_read_weights 0 0 0
      = Some (frac 1 4 * 0 + frac 1 2 * frac 1 2 + frac 1 4 * 1)
    ∧ ∀ new, column 0 <$> new_read_weights !! 0%nat = Some new → sub_distribution new.
Proof.
  destruct (update_read_weights_entry 1 2 1 [[[frac 1 2]; [frac 1 2]]] [[[1]; [0]]]
              [[[0]; [1]]] [[[frac 1 4]; [frac 1 2]; [frac 1 4]]])
    as (r & Hr & _ & Hentry & Hsub); [repeat constructor..|].
  exists r. split; [exact Hr|]. split.
  - apply Hentry; reflexivity.
  - intros new Hnew.
    apply (Hsub 0%nat 0%nat [frac 1 4; frac 1 2; frac 1 4] [frac 1 2; frac 1 2] [1; 0]
             [0; 1] new);
      [lia|reflexivity|reflexivity|reflexivity|reflexivity|exact Hnew|
       by apply (bool_decide_eq_true_1 _)..].
Defined.

(** X13.  [update_read_weights] reads rows 0, 1 and 2 of the read modes and
    nothing else: on read modes with fewer than three rows it raises, and
    rows beyond the third do not change what it returns. *)
Theorem update_read_weights_mode_rows
    (lookup_weights forward_weight backward_weight read_mode : tensor3 Qc) :
  (∀ B K R, has_shape3 B K R read_mode → (0 < B)%nat → (K < 3)%nat →
     update_read_weights lookup_weights forward_weight backward_weight read_mode = None)
  ∧ update_read_weights lookup_weights forward_weight backward_weight
      ((λ m : tensor2 Qc, take 3 m) <$> read_mode)
    = update_read_weights lookup_weights forward_weight backward_weight read_mode.
Proof.
  split.
  - intros B K R Hm HB HK. unfold update_read_weights.
    rewrite (select_1_short B K R read_mode 2) by (done || lia).
    destruct (select_1 0 read_mode) as [s0|]; simpl; [|done].
    destruct (pointwise3 _ _ backward_weight); simpl; [|done].
    destruct (select_1 1 read_mode) as [s1|]; simpl; [|done].
    by destruct (pointwise3 _ _ lookup_weights).
  - unfold update_read_weights. by rewrite !select_1_take by lia.
Qed.

Lemma update_read_weights_mode_rows_witness :
  update_read_weights [[[frac 1 2]; [frac 1 2]]] [[[1]; [0]]] [[[0]; [1]]]
    [[[frac 1 4]; [frac 1 2]]] = None.
Proof.
  destruct (update_read_weights_mode_rows [[[frac 1 2]; [frac 1 2]]] [[[1]; [0]]]
              [[[0]; [1]]] [[[frac 1 4]; [frac 1 2]]]) as [Hshort _].
  apply (Hshort 1 2 1)%nat; [repeat constructor|lia|lia].
Defined.

Section object_extras.
Import HeapFacts.

(** X17.  [init_memory] on the heap: every call allocates seven new tensor
    objects behind the ones that exist, changes none of those, writes 1e-6
    in place into the four tensors it fills and into nothing else, and
    returns the seven references in the order of the named tuple; the
    objects hold the state of the value-level [init_memory]. *)
Theorem init_memory_fresh_objects self h :
  let state := init_memory self in
  let n := length h in
  Heap.init_memory self h =
  (Ok (n, n + 1, n + 2, n + 3, n + 4, n + 5, n + 6)%nat,
   h ++ [Heap.float3 (mem_mat state); Heap.float2 (mem_usage state); Heap.float2 (pre_vec state);
         Heap.float3 (link_mat state); Heap.float2 (write_weight state);
         Heap.float3 (read_weight state); Heap.float3 (read_vec state)]).
Proof.
  intros state n. unfold Heap.init_memory, Heap.zeros_2, Heap.zeros_3, Heap.fill_.
  rewrite <-(app_nil_r h) at 1.
  repeat run_step.
  unfold mret, Heap.run_ret. rewrite !fill_float3, fill_float2, Nat.add_0_r. done.
Qed.


(** X18.  [write] returns nothing, whatever it is given.  On a heap where
    the operands of its first two calls are float tensors of finite numbers
    on which [get_content_address] and [update_usage_vector] return, the
    call creates the lookup weight, the new usage vector and the sort list,
    in this order, behind the objects that exist, and raises at line 356:
    nothing else is created and no object is changed. *)
Theorem write_raises cosine_distance softmax self h
    (memory_matrix : tensor3 Qc) (usage_vector : tensor2 Qc) (read_weights : tensor3 Qc)
    (write_weight precedence_vector : tensor2 Qc) (link_matrix key : tensor3 Qc)
    (strength free_gates allocation_gate write_gate write_vector erase_vector : tensor2 Qc)
    rm ru rr rw rp rl rk rs rf ra rg rv re lookup_weight new_usage_vector :
  h !! rm = Some (Heap.float3 memory_matrix) →
  h !! rk = Some (Heap.float3 key) →
  h !! rs = Some (Heap.float2 strength) →
  h !! ru = Some (Heap.float2 usage_vector) →
  h !! rr = Some (Heap.float3 read_weights) →
  h !! rw = Some (Heap.float2 write_weight) →
  h !! rf = Some (Heap.float2 free_gates) →
  get_content_address cosine_distance softmax memory_matrix key strength
    = Some lookup_weight →
  update_usage_vector usage_vector read_weights write_weight free_gates
    = Some new_usage_vector →
  write cosine_distance softmax self memory_matrix usage_vector read_weights write_weight
    precedence_vector link_matrix key strength free_gates allocation_gate write_gate
    write_vector erase_vector = None
  ∧ ∃ sort_list,
      length sort_list = length new_usage_vector
      ∧ Heap.write cosine_distance softmax self rm ru rr rw rp rl rk rs rf ra rg rv re h
        = (Raised,
           h ++ [Heap.float3 lookup_weight; Heap.float2 new_usage_vector;
                 Heap.Long2 sort_list]).
Proof.
  intros Hm Hk Hs Hu Hr Hw Hf Hlw Hnu. split.
  { unfold write. by rewrite Hlw, Hnu. }
  exists (argsort new_usage_vector). split; [unfold argsort; by rewrite length_fmap|].
  unfold Heap.write, Heap.get_content_address, Heap.update_usage_vector.
  rewrite run_bind_eq, (call3_eq _ _ _ _ _ _ _ _ Hm Hk Hs), T_get_content_address_float, Hlw.
  cbn [fmap outcome_fmap lift].
  rewrite run_bind_eq.
  rewrite (call4_eq _ _ _ _ _ _ (Heap.float2 usage_vector) (Heap.float3 read_weights)
             (Heap.float2 write_weight) (Heap.float2 free_gates))
    by (by apply lookup_app_l_Some).
  rewrite T_update_usage_vector_float, Hnu. cbn [fmap outcome_fmap lift].
  rewrite run_bind_eq.
  rewrite (call1_eq _ _ _ (Heap.float2 new_usage_vector)) by (by apply list_lookup_middle).
  rewrite T_argsort_float.
  rewrite run_bind_eq.
  rewrite (call1_eq _ _ _ (Heap.Long2 (argsort new_usage_vector)))
    by (by apply list_lookup_middle).
  cbn. by rewrite <-!app_assoc.
Qed.

Lemma write_raises_witness :
  ∃ sort_list,
    Heap.write toy_cosine_distance toy_softmax toy_self 0 3 1 3 3 4 2 3 3 3 3 3 3 toy_heap
    = (Raised,
       toy_heap ++ [Heap.float3 [[[1]]]; Heap.float2 [[1]]; Heap.Long2 sort_list]).
Proof.
  destruct (write_raises toy_cosine_distance toy_softmax toy_self toy_heap
              [[[1]]] [[1]] [[[1]]] [[1]] [[1]] [[[0]]] [[[1]]] [[1]] [[1]] [[1]] [[1]]
              [[1]] [[1]] 0%nat 3%nat 1%nat 3%nat 3%nat 4%nat 2%nat 3%nat 3%nat 3%nat
              3%nat 3%nat 3%nat [[[1]]] [[1]]) as [_ (sort_list & _ & Hrun)].
  - reflexivity.
  - reflexivity.
  - reflexivity.
  - reflexivity.
  - reflexivity.
  - reflexivity.
  - reflexivity.
  - reflexivity.
  - apply (bool_decide_eq_true_1 _). by vm_compute.
  - exists sort_list. exact Hrun.
Defined.

(** X19.  [read] returns nothing, whatever it is given.  On a heap where
    the memory bank, the keys, the strengths, the read weights and the link
    matrix are float tensors of finite numbers and [get_content_address]
    returns, the call creates the lookup weight behind the objects that
    exist and raises at line 254: nothing else is created and no object is
    changed. *)
Theorem read_raises cosine_distance softmax h
    (memory_matrix read_weights keys : tensor3 Qc) (strengths : tensor2 Qc)
    (link_matrix read_modes : tensor3 Qc) rm rr rk rs rl rd lookup_weight :
  h !! rm = Some (Heap.float3 memory_matrix) →
  h !! rk = Some (Heap.float3 keys) →
  h !! rs = Some (Heap.float2 strengths) →
  h !! rr = Some (Heap.float3 read_weights) →
  h !! rl = Some (Heap.float3 link_matrix) →
  get_content_address cosine_distance softmax memory_matrix keys strengths
    = Some lookup_weight →
  read cosine_distance softmax memory_matrix read_weights keys strengths link_matrix
    read_modes = None
  ∧ Heap.read cosine_distance softmax rm rr rk rs rl rd h
    = (Raised, h ++ [Heap.float3 lookup_weight]).
Proof.
  intros Hm Hk Hs Hr Hl Hlw. split.
  { unfold read. by rewrite Hlw. }
  unfold Heap.read, Heap.get_content_address, Heap.get_directional_weights.
  rewrite run_bind_eq, (call3_eq _ _ _ _ _ _ _ _ Hm Hk Hs), T_get_content_address_float, Hlw.
  cbn [fmap outcome_fmap lift].
  rewrite run_bind_eq.
  rewrite (call2_pair_eq _ _ _ _ (Heap.float3 read_weights) (Heap.float3 link_matrix))
    by (by apply lookup_app_l_Some).
  by rewrite T_get_directional_weights_float.
Qed.

Lemma read_raises_witness :
  Heap.read toy_cosine_distance toy_softmax 0 1 2 3 4 5 toy_heap
  = (Raised, toy_heap ++ [Heap.float3 [[[1]]]]).
Proof.
  destruct (read_raises toy_cosine_distance toy_softmax toy_heap
              [[[1]]] [[[1]]] [[[1]]] [[1]] [[[0]]] [[[0]; [1]; [0]]]
              0%nat 1%nat 2%nat 3%nat 4%nat 5%nat [[[1]]]) as [_ Hrun].
  - reflexivity.
  - reflexivity.
  - reflexivity.
  - reflexivity.
  - reflexivity.
  - reflexivity.
  - exact Hrun.
Defined.

(** X20.  [get_allocation_weight] on the heap, for a sorted usage of shape
    [B,N] with at least one batch row and any free list: the call creates
    two tensors behind the objects that exist, [shifted_cumprod], which
    holds the quotients of line 112 with the last batch row divided once
    more in place by line 113, and [unordered_allocation_weight]; it changes
    no object it was handed and raises at line 117, returning nothing. *)
Theorem get_allocation_weight_raises self h sorted_usage free_list B N su fl :
  (0 < B)%nat →
  has_shape2 B N su →
  h !! sorted_usage = Some (Heap.float2 su) →
  h !! free_list = Some (Heap.Long2 fl) →
  ∃ usage_0 usage_last unordered,
    su !! 0%nat = Some usage_0
    ∧ last su = Some usage_last
    ∧ unordered_allocation_weight su = Some unordered
    ∧ get_allocation_weight self su fl = None
    ∧ Heap.get_allocation_weight self sorted_usage free_list h
      = (Raised,
         h ++ [Heap.Float2 (shifted_cumprod_113 su usage_0 usage_last);
               Heap.Float2 unordered]).
Proof.
  intros HB Hs Hsu Hfl.
  destruct (lookup_lt_is_Some_2 su 0) as [u0 H0]; [destruct Hs; lia|].
  destruct (last su) as [ul|] eqn:Hl.
  2:{ apply last_None in Hl. by subst. }
  pose proof (unordered_allocation_weight_eq B N su u0 ul Hs H0 Hl) as Hun.
  eexists u0, ul, _. split_and!; [done..| |].
  { unfold get_allocation_weight. by rewrite Hun. }
  assert (length u0 = N) as Hl0 by eauto using has_shape2_lookup.
  assert (length ul = N) as Hll.
  { rewrite last_lookup in Hl. eauto using has_shape2_lookup. }
  pose proof (has_shape2_shifted_cumprod_112 B N su u0 Hs Hl0) as Hs112.
  assert (pointwise2 fdiv (cumprod_1 su) [u0] = Some (shifted_cumprod_112 su u0)) as Hq.
  { by rewrite (pointwise2_row _ B N) by eauto using has_shape2_cumprod_1. }
  destruct (last (shifted_cumprod_112 su u0)) as [sl|] eqn:Hsl.
  2:{ apply last_None in Hsl. destruct Hs112 as [Hlen _]. rewrite Hsl in Hlen.
      simpl in Hlen. lia. }
  assert (length sl = N) as Hlsl.
  { rewrite last_lookup in Hsl. eauto using has_shape2_lookup. }
  assert (pointwise1 xdiv sl ul = Some (zip_with xdiv sl ul)) as Hquo
    by (apply pointwise1_zip; congruence).
  assert (pointwise2 xscale (rsub2 1 su) (shifted_cumprod_113 su u0 ul)
          = Some (zip_with (zip_with xscale) (rsub2 1 su) (shifted_cumprod_113 su u0 ul)))
    as Hw.
  { apply pointwise2_zip. eapply has_shape2_Forall2; [by apply has_shape2_rsub2|].
    by apply has_shape2_shifted_cumprod_113. }
  unfold shifted_cumprod_113 in *. rewrite Hsl in *. simpl in Hw.
  unfold Heap.get_allocation_weight.
  rewrite <-(app_nil_r h) at 1.
  run_step. rewrite ?as_float2_float2, ?finite2_Some. simpl.
  run_step. rewrite H0. simpl.
  run_step. rewrite Hq. simpl.
  run_step. run_step.
  run_step. rewrite Hsl. simpl.
  run_step. rewrite Hl. simpl.
  run_step. rewrite Hquo. simpl.
  run_step. run_step.
  run_step. rewrite Hw. simpl.
  run_step. run_step.
  run_step. done.
Qed.

Lemma get_allocation_weight_raises_witness :
  let self := {| mem_slot := 2; mem_size := 1; read_heads := 1; batch_size := 1 |} in
  ∃ shifted_cumprod unordered,
    unordered_allocation_weight [[frac 1 4; frac 1 2]] = Some unordered
    ∧ Heap.get_allocation_weight self 0 1
        [Heap.float2 [[frac 1 4; frac 1 2]]; Heap.Long2 [[1; 0]]%nat]
      = (Raised,
         [Heap.float2 [[frac 1 4; frac 1 2]]; Heap.Long2 [[1; 0]]%nat;
          Heap.Float2 shifted_cumprod; Heap.Float2 unordered]).
Proof.
  intros self.
  destruct (get_allocation_weight_raises self
              [Heap.float2 [[frac 1 4; frac 1 2]]; Heap.Long2 [[1; 0]]%nat] 0 1 1 2
              [[frac 1 4; frac 1 2]] [[1; 0]]%nat)
    as (u0 & ul & un & _ & _ & Hun & _ & Hrun).
  - lia.
  - repeat constructor.
  - reflexivity.
  - reflexivity.
  - exists (shifted_cumprod_113 [[frac 1 4; frac 1 2]] u0 ul), un.
    split; [exact Hun|exact Hrun].
Defined.

End object_extras.
